(** * Route matching: exact-match table, prefix table and lookup cache

    A shallow embedding of [main.go] of the route-matching library: the three
    package-level tables, [AddRoute], [flushDynamicRoutes], [RouteLookup] and
    [createDynamicRoute], followed by the properties of the routing engine.

    Go strings are byte strings: [string] (a list of 8-bit [ascii]) with
    [String.length] for [len] and [substring 0 n s] for [s[0:n]].  The map
    [exactMatchTable] is a [gmap string route]; the two slices are lists.
    The diagnostics printed with [fmt.Println] are not part of the model. *)

From Stdlib Require Import String Ascii List Sorted Permutation Arith Lia.
From stdpp Require Import base option list gmap strings fin_maps sorting.

Local Open Scope string_scope.

(** ** Data model *)

(** [type route struct] *)
Record route : Type := mkRoute {
  path : string;
  matchType : string;
  destination : string;
  dynamicEntry : bool
}.

#[global] Instance route_eq_dec : EqDecision route.
Proof. solve_decision. Defined.

(** The zero value of [route], which [make([]route, 10)] fills the slice with. *)
Definition zeroRoute : route := mkRoute "" "" "" false.

(** Go's [error] interface; [nil] is [None] of [option error]. *)
Inductive error : Type := errorString (msg : string).

(** The package-level variables. *)
Record state : Type := mkState {
  prefixRoutesTable : list route;
  exactMatchTable : gmap string route;
  dynamicEntries : list string
}.

(** [func init()]: [make([]route, 10)] and [make([]string, 10)] are slices of
    length 10 holding zero values; [make(map[string]route, 10)] is an empty map. *)
Definition init : state :=
  mkState (replicate 10 zeroRoute) ∅ (replicate 10 "").

(** A state with nothing in any table (what [init] would give had the slices
    been made with length 0). *)
Definition emptyState : state := mkState [] ∅ [].

(** ** [sort.Slice]

    [sort.Slice] belongs to Go's library.  Its contract: the slice is permuted
    so that no element is [less] than an element before it; the sort is not
    stable; the algorithm sees the elements only through [less] and moves
    them by swaps.  The engine is verified against every sorter that meets the
    contract. *)

(** What [sort] asks of a [less] function. *)
Record LessOrdering {A : Type} (less : A → A → bool) : Prop := {
  less_irrefl : ∀ a, less a a = false;
  less_trans : ∀ a b c, less a b = true → less b c = true → less a c = true;
  less_incomp_trans :
    ∀ a b c, less a b = false → less b c = false → less a c = false
}.

Class SliceSorter : Type := {
  sort_Slice : ∀ A : Type, (A → A → bool) → list A → list A;
  sort_Slice_perm :
    ∀ (A : Type) (less : A → A → bool) (x : list A),
      sort_Slice A less x ≡ₚ x;
  sort_Slice_sorted :
    ∀ (A : Type) (less : A → A → bool) (x : list A),
      LessOrdering less →
      StronglySorted (λ a b, less b a = false) (sort_Slice A less x);
  sort_Slice_natural :
    ∀ (A B : Type) (f : A → B) (lessA : A → A → bool) (lessB : B → B → bool)
      (x : list A),
      (∀ a b, lessB (f a) (f b) = lessA a b) →
      sort_Slice B lessB (f <$> x) = f <$> sort_Slice A lessA x
}.

Arguments sort_Slice {_ _} less x.

(** A stable insertion sort, the reference sorter. *)
Fixpoint insertSorted {A : Type} (less : A → A → bool) (a : A) (x : list A)
  : list A :=
  match x with
  | [] => [a]
  | b :: x' => if less a b then a :: b :: x' else b :: insertSorted less a x'
  end.

Definition insertionSort {A : Type} (less : A → A → bool) (x : list A)
  : list A :=
  fold_left (λ acc a, insertSorted less a acc) x [].

(** ** The engine *)

(** The comparison closure passed to [sort.Slice] in [AddRoute]:
    [len(prefixRoutesTable[i].path) > len(prefixRoutesTable[j].path)]. *)
Definition lessByPathLength (a b : route) : bool :=
  (String.length (path b) <? String.length (path a))%nat.

(** [prefixRoutesTable[i].destination = destination] *)
Definition setDestination (d : string) (r : route) : route :=
  mkRoute (path r) (matchType r) d (dynamicEntry r).

(** [func flushDynamicRoutes()]: one iteration of the loop, then the loop and
    [dynamicEntries = nil]. *)
Definition flushEntry (m : gmap string route) (p : string)
  : gmap string route :=
  if decide (p ≠ "") then
    match m !! p with
    | Some dR => if dynamicEntry dR then delete p m else m
    | None => m
    end
  else m.

Definition flushDynamicRoutes (st : state) : state :=
  mkState (prefixRoutesTable st)
          (fold_left flushEntry (dynamicEntries st) (exactMatchTable st))
          [].

(** [func createDynamicRoute(path, destination)] *)
Definition createDynamicRoute (st : state) (p d : string) : state :=
  mkState (prefixRoutesTable st)
          (<[p := mkRoute p "exact" d true]> (exactMatchTable st))
          (dynamicEntries st ++ [p]).

(** [func AddRoute(path, matchType, destination) error].  The range loop
    stops at the first record whose path is [path]; the deferred
    [flushDynamicRoutes()] runs when the function returns, after the
    destination was updated.  A path that is not found is appended and the
    slice is sorted again; that branch returns without a flush. *)
Definition AddRoute `{sorter : SliceSorter} (st : state) (p mt d : string)
  : option error * state :=
  let rte := mkRoute p mt d false in
  if String.eqb mt "exact" then
    (None, mkState (prefixRoutesTable st)
                   (<[p := rte]> (exactMatchTable st))
                   (dynamicEntries st))
  else
    match list_find (λ r, path r = p) (prefixRoutesTable st) with
    | Some (i, _) =>
        (None,
         flushDynamicRoutes
           (mkState (alter (setDestination d) i (prefixRoutesTable st))
                    (exactMatchTable st)
                    (dynamicEntries st)))
    | None =>
        (None,
         mkState (sort_Slice lessByPathLength (prefixRoutesTable st ++ [rte]))
                 (exactMatchTable st)
                 (dynamicEntries st))
    end.

(** The test of the prefix scan in [RouteLookup]:
    [len(path) >= len(r.path) && len(r.path) != 0 && r.path == path[0:len(r.path)]]. *)
Definition prefixMatch (p : string) (r : route) : bool :=
  (String.length (path r) <=? String.length p)%nat
  && negb (String.length (path r) =? 0)%nat
  && String.eqb (path r) (substring 0 (String.length (path r)) p).

(** [func RouteLookup(path) (string, error)] *)
Definition RouteLookup (st : state) (p : string)
  : (string * option error) * state :=
  match exactMatchTable st !! p with
  | Some rte => ((destination rte, None), st)
  | None =>
      match List.find (prefixMatch p) (prefixRoutesTable st) with
      | Some r =>
          ((destination r, None), createDynamicRoute st p (destination r))
      | None =>
          (("default-service", None),
           createDynamicRoute st p "default-service")
      end
  end.

(** ** Sequences of calls *)

Inductive op : Type :=
| OpAddRoute (p mt d : string)
| OpRouteLookup (p : string).

Definition step `{sorter : SliceSorter} (st : state) (o : op) : state :=
  match o with
  | OpAddRoute p mt d => snd (AddRoute st p mt d)
  | OpRouteLookup p => snd (RouteLookup st p)
  end.

Definition run `{sorter : SliceSorter} (ops : list op) (st : state) : state :=
  fold_left step ops st.

(** The states the program can be in: [init], then any calls. *)
Definition reachable `{sorter : SliceSorter} (st : state) : Prop :=
  ∃ ops, st = run ops init.

(** ** The test of the package

    [TestRouteAddsLookups] of the test file walks a table of rows; a row is an
    "addRoute" or a "routeLookup" and [t.Errorf] records a failure.  The
    message of a failure is not modelled, its arguments are. *)

(** [type pathLookupsTest struct] *)
Record pathLookupsTest : Type := mkTest {
  operation : string;
  arg1 : string;
  arg2 : string;
  arg3 : string;
  expected1 : string;
  expected2 : string
}.

(** [var addLookupTests] *)
Definition addLookupTests : list pathLookupsTest :=
  [ mkTest "addRoute" "/api/1" "exact" "service-1" "" "";
    mkTest "addRoute" "/api/1/1" "exact" "service-2" "" "";
    mkTest "addRoute" "/api/2/1" "prefix" "service-3" "" "";
    mkTest "addRoute" "/api/2/" "prefix" "service-4" "" "";
    mkTest "addRoute" "/api/1" "prefix" "service-5" "" "";
    mkTest "addRoute" "/api/2/1/1" "prefix" "service-6" "" "";
    mkTest "routeLookup" "/api/1" "" "" "service-1" "";
    mkTest "routeLookup" "/api/1/2" "" "" "service-5" "";
    mkTest "routeLookup" "/api/3" "" "" "default-service" "";
    mkTest "routeLookup" "/api/2/1/2" "" "" "service-3" "";
    mkTest "routeLookup" "/api/2/" "" "" "service-4" "";
    mkTest "addRoute" "/api/2/" "prefix" "service-7" "" "";
    mkTest "routeLookup" "/api/2/" "" "" "service-7" "" ].

(** The three calls of [t.Errorf], with their arguments. *)
Inductive failure : Type :=
| AddRouteFailed (output : option error) (expected : string)
| WrongDestination (output1 expected : string)
| UnexpectedError (output2 : option error) (expected : string).

(** The body of the loop of [TestRouteAddsLookups]: the two [if]s on
    [test.operation], one after the other. *)
Definition testRow `{sorter : SliceSorter} (acc : list failure * state)
    (test : pathLookupsTest) : list failure * state :=
  let '(fails, st) := acc in
  let '(fails, st) :=
    if String.eqb (operation test) "addRoute" then
      let '(output, st') := AddRoute st (arg1 test) (arg2 test) (arg3 test) in
      (if String.eqb (expected1 test) "" && bool_decide (output ≠ None)
       then (fails ++ [AddRouteFailed output (expected1 test)])%list else fails,
       st')
    else (fails, st) in
  if String.eqb (operation test) "routeLookup" then
    let '((output1, output2), st') := RouteLookup st (arg1 test) in
    let fails :=
      if bool_decide (output1 ≠ expected1 test)
      then (fails ++ [WrongDestination output1 (expected1 test)])%list
      else fails in
    (if String.eqb (expected2 test) "" && bool_decide (output2 ≠ None)
     then (fails ++ [UnexpectedError output2 (expected2 test)])%list else fails,
     st')
  else (fails, st).

(** [func TestRouteAddsLookups], on a table of rows, from the state [st]. *)
Definition TestRouteAddsLookups `{sorter : SliceSorter}
    (tests : list pathLookupsTest) (st : state) : list failure * state :=
  fold_left testRow tests ([], st).

(** ** Vocabulary of the properties *)

(** A prefix record matches [p] iff [len(p) >= len(record.path) > 0] and the
    record's path is the leading substring of [p] of that length. *)
Definition prefixMatches (p : string) (r : route) : Prop :=
  (String.length (path r) ≤ String.length p)%nat
  ∧ (0 < String.length (path r))%nat
  ∧ path r = substring 0 (String.length (path r)) p.

(** The exact-match table holds a dynamic entry at [p]. *)
Definition isDynamic (m : gmap string route) (p : string) : bool :=
  match m !! p with
  | Some r => dynamicEntry r
  | None => false
  end.

(** The records of the prefix table whose path is [p]. *)
Definition recordsFor (p : string) (tbl : list route) : list route :=
  filter (λ r, path r = p) tbl.

(** No record is followed by one with a longer path. *)
Definition sortedByPathLength (tbl : list route) : Prop :=
  StronglySorted (λ a b, lessByPathLength b a = false) tbl.

(** What every reachable prefix table satisfies: sorted, and at most one
    record for each non-empty path. *)
Definition tableInvariant (tbl : list route) : Prop :=
  sortedByPathLength tbl
  ∧ ∀ p, p ≠ "" → (length (recordsFor p tbl) ≤ 1)%nat.

(** [r] is a record of the table that matches [p] and no matching record has
    a longer path. *)
Definition longestMatch (p : string) (tbl : list route) (r : route) : Prop :=
  r ∈ tbl ∧ prefixMatches p r
  ∧ ∀ r', r' ∈ tbl → prefixMatches p r' →
          (String.length (path r') ≤ String.length (path r))%nat.

(** Both routes are there: the exact-match table holds the caller's record
    for [p] with destination [d1], the prefix table holds a record for [p]
    with destination [d2], and a lookup of [p] answers [d1] with a nil error. *)
Definition coexist (st : state) (p d1 d2 : string) : Prop :=
  exactMatchTable st !! p = Some (mkRoute p "exact" d1 false)
  ∧ (∃ r, r ∈ prefixRoutesTable st ∧ path r = p ∧ destination r = d2)
  ∧ fst (RouteLookup st p) = (d1, None).

(** The calls that may come between two lookups of [p] without changing the
    answer: any lookup, and the registration of an exact route for another
    path. *)
Definition keepsAnswerFor (p : string) (o : op) : Prop :=
  match o with
  | OpRouteLookup _ => True
  | OpAddRoute q mt _ => mt = "exact" ∧ q ≠ p
  end.

(** The registrations of the worked example in the package comment. *)
Definition exampleRoutes : list op :=
  [ OpAddRoute "/api/1" "exact" "service-1";
    OpAddRoute "/api/1/1" "exact" "service-2";
    OpAddRoute "/api/2/1" "prefix" "service-3";
    OpAddRoute "/api/2/" "prefix" "service-4";
    OpAddRoute "/api/1" "prefix" "service-5";
    OpAddRoute "/api/2/1/1" "prefix" "service-6" ].

(** The lookups of the example, the change of "/api/2/" to service-7 and the
    last lookup, run after [exampleRoutes] from the state [start]; the
    results are what the package comment and the test table expect. *)
Definition workedExample `{sorter : SliceSorter} (start : state) : Prop :=
  let l1 := RouteLookup (run exampleRoutes start) "/api/1" in
  let l2 := RouteLookup (snd l1) "/api/1/2" in
  let l3 := RouteLookup (snd l2) "/api/3" in
  let l4 := RouteLookup (snd l3) "/api/2/1/2" in
  let l5 := RouteLookup (snd l4) "/api/2/" in
  let a7 := AddRoute (snd l5) "/api/2/" "prefix" "service-7" in
  let l6 := RouteLookup (snd a7) "/api/2/" in
  fst l1 = ("service-1", None)
  ∧ fst l2 = ("service-5", None)
  ∧ fst l3 = ("default-service", None)
  ∧ fst l4 = ("service-3", None)
  ∧ fst l5 = ("service-4", None)
  ∧ fst a7 = None
  ∧ fst l6 = ("service-7", None).

(** A record without its [matchType], the field that [AddRoute] stores and
    nothing reads. *)
Definition routeView (r : route) : string * string * bool :=
  (path r, destination r, dynamicEntry r).

(** [lessByPathLength] on views. *)
Definition lessByViewLength (a b : string * string * bool) : bool :=
  (String.length (fst (fst b)) <? String.length (fst (fst a)))%nat.

(** Elements of [x] that [less] does not separate are equal: the sorted
    permutation of [x] is then unique. *)
Definition keyDetermined {A : Type} `{EqDecision A} (less : A → A → bool)
    (x : list A) : bool :=
  forallb (λ a, forallb (λ b, less a b || less b a || bool_decide (a = b)) x) x.

(** The call [o] in state [st] sorts, if it sorts at all, a slice whose
    sorted permutation is unique. *)
Definition opCanonical (st : state) (o : op) : bool :=
  match o with
  | OpAddRoute p mt d =>
      if String.eqb mt "exact" then true
      else match list_find (λ r, path r = p) (prefixRoutesTable st) with
           | Some _ => true
           | None => keyDetermined lessByPathLength
                       (prefixRoutesTable st ++ [mkRoute p mt d false])
           end
  | OpRouteLookup _ => true
  end.

(** Every call of the sequence does, along the run. *)
Fixpoint runCanonical `{sorter : SliceSorter} (ops : list op) (st : state)
  : bool :=
  match ops with
  | [] => true
  | o :: ops' => opCanonical st o && runCanonical ops' (step st o)
  end.

(** The answer of the prefix scan of [RouteLookup], with its default. *)
Definition scan (tbl : list route) (p : string) : string :=
  match List.find (prefixMatch p) tbl with
  | Some r => destination r
  | None => "default-service"
  end.

(** The answer the tables give for [p] when no cached entry is used: the
    destination of the caller's exact route, else the prefix scan. *)
Definition resolve (st : state) (p : string) : string :=
  match exactMatchTable st !! p with
  | Some r =>
      if dynamicEntry r then scan (prefixRoutesTable st) p else destination r
  | None => scan (prefixRoutesTable st) p
  end.

(** Every entry of the exact-match table is stored under its own path with
    match type "exact"; no record of the prefix table is dynamic or has the
    match type "exact". *)
Definition wellFormed (st : state) : Prop :=
  (∀ q r, exactMatchTable st !! q = Some r → path r = q ∧ matchType r = "exact")
  ∧ (∀ r, r ∈ prefixRoutesTable st →
          dynamicEntry r = false ∧ matchType r ≠ "exact").

(** The ledger records every dynamic entry of a non-empty path. *)
Definition ledgerComplete (st : state) : Prop :=
  ∀ q r, exactMatchTable st !! q = Some r → dynamicEntry r = true →
         q ≠ "" → q ∈ dynamicEntries st.

(** A dynamic entry holds the default service or the destination of a record
    of the prefix table that matches its path. *)
Definition cacheGrounded (st : state) : Prop :=
  ∀ q r, exactMatchTable st !! q = Some r → dynamicEntry r = true →
         destination r = "default-service"
         ∨ ∃ r', r' ∈ prefixRoutesTable st ∧ prefixMatches q r'
                 ∧ destination r' = destination r.

(** Every dynamic entry holds what the prefix scan answers now. *)
Definition coherent (st : state) : Prop :=
  ∀ q r, exactMatchTable st !! q = Some r → dynamicEntry r = true →
         destination r = scan (prefixRoutesTable st) q.

(** The call adds no record to a prefix table whose paths are [paths]: it is
    a lookup, the registration of an exact route, or the registration of a
    prefix path that the table has. *)
Definition addsNoPrefix (paths : list string) (o : op) : Prop :=
  match o with
  | OpRouteLookup _ => True
  | OpAddRoute q mt _ => mt = "exact" ∨ q ∈ paths
  end.

(** The call registers no exact route for [p]. *)
Definition keepsExactRoute (p : string) (o : op) : Prop :=
  match o with
  | OpRouteLookup _ => True
  | OpAddRoute q mt _ => mt = "exact" → q ≠ p
  end.

(** The call a row of the test table makes, if any. *)
Definition rowOp (test : pathLookupsTest) : option op :=
  if String.eqb (operation test) "addRoute" then
    Some (OpAddRoute (arg1 test) (arg2 test) (arg3 test))
  else if String.eqb (operation test) "routeLookup" then
    Some (OpRouteLookup (arg1 test))
  else None.

(** The call is a registration. *)
Definition isRegistration (o : op) : Prop :=
  match o with
  | OpAddRoute _ _ _ => True
  | OpRouteLookup _ => False
  end.

(** The paths that a sequence of calls registers as prefix routes, in order;
    the destination of the last registration of [q] as a prefix route. *)
Definition prefixPathsOf (ops : list op) : list string :=
  omap (λ o, match o with
             | OpAddRoute q mt _ => if String.eqb mt "exact" then None else Some q
             | OpRouteLookup _ => None
             end) ops.

Definition lastPrefixDestination (ops : list op) (q : string) : option string :=
  fold_left (λ acc o, match o with
                      | OpAddRoute q' mt d =>
                          if String.eqb mt "exact" then acc
                          else if String.eqb q' q then Some d else acc
                      | OpRouteLookup _ => acc
                      end) ops None.

(** The distinct non-empty paths that a sequence of calls registers as
    prefix routes. *)
Definition distinctPrefixPaths (ops : list op) : list string :=
  remove_dups (filter (λ q, q ≠ "") (prefixPathsOf ops)).

(** Every "routeLookup" row of the table expects the destination that the
    engine answers when the rows are run in order from [st]. *)
Fixpoint rowsAgree `{sorter : SliceSorter} (tests : list pathLookupsTest)
    (st : state) : Prop :=
  match tests with
  | [] => True
  | test :: tests' =>
      (operation test = "routeLookup" →
       fst (fst (RouteLookup st (arg1 test))) = expected1 test)
      ∧ rowsAgree tests' (match rowOp test with
                          | Some o => step st o
                          | None => st
                          end)
  end.

(** The state after a row of the test table, and the failures that the
    rows of a table record when they are run in order from [st]: one
    [WrongDestination] for each "routeLookup" row whose expected destination
    is not the engine's answer. *)
Definition rowState `{sorter : SliceSorter} (st : state)
    (test : pathLookupsTest) : state :=
  match rowOp test with
  | Some o => step st o
  | None => st
  end.

Definition rowFailures (st : state) (test : pathLookupsTest) : list failure :=
  if String.eqb (operation test) "routeLookup"
     && bool_decide (fst (fst (RouteLookup st (arg1 test))) ≠ expected1 test)
  then [WrongDestination (fst (fst (RouteLookup st (arg1 test))))
          (expected1 test)]
  else [].

Fixpoint testFailures `{sorter : SliceSorter} (tests : list pathLookupsTest)
    (st : state) : list failure :=
  match tests with
  | [] => []
  | test :: tests' =>
      (rowFailures st test ++ testFailures tests' (rowState st test))%list
  end.

(** ** The reference sorter meets the contract of [sort.Slice] *)

Section InsertionSort.
Context {A : Type} (less : A → A → bool).

Lemma insertSorted_perm (a : A) (x : list A) :
  insertSorted less a x ≡ₚ a :: x.
Proof.
  induction x as [|b x IH]; simpl; [done|].
  destruct (less a b); [done|].
  rewrite IH. apply Permutation_swap.
Qed.

Lemma fold_insertSorted_perm (x acc : list A) :
  fold_left (λ acc a, insertSorted less a acc) x acc ≡ₚ x ++ acc.
Proof.
  revert acc. induction x as [|a x IH]; intros acc; simpl; [done|].
  rewrite IH, insertSorted_perm. by rewrite Permutation_middle.
Qed.

Lemma insertionSort_perm (x : list A) : insertionSort less x ≡ₚ x.
Proof.
  unfold insertionSort. rewrite fold_insertSorted_perm. by rewrite app_nil_r.
Qed.

Hypothesis less_ok : LessOrdering less.

Lemma less_asym (a b : A) : less a b = true → less b a = false.
Proof.
  intros Hab. destruct (less b a) eqn:Hba; [|done].
  pose proof (less_trans less less_ok a b a Hab Hba) as Haa.
  rewrite (less_irrefl less less_ok) in Haa. discriminate.
Qed.

Lemma insertSorted_sorted (a : A) (x : list A) :
  StronglySorted (λ a b, less b a = false) x →
  StronglySorted (λ a b, less b a = false) (insertSorted less a x).
Proof.
  induction 1 as [|b x Hx IH Hb]; simpl.
  - repeat constructor.
  - destruct (less a b) eqn:Hab.
    + constructor; [by constructor|].
      constructor; [by apply less_asym|].
      eapply Forall_impl; [exact Hb|]. simpl. intros c Hcb.
      eapply (less_incomp_trans less less_ok); [exact Hcb|by apply less_asym].
    + constructor; [exact IH|].
      rewrite insertSorted_perm. by constructor.
Qed.

Lemma fold_insertSorted_sorted (x acc : list A) :
  StronglySorted (λ a b, less b a = false) acc →
  StronglySorted (λ a b, less b a = false)
    (fold_left (λ acc a, insertSorted less a acc) x acc).
Proof.
  revert acc. induction x as [|a x IH]; intros acc Hacc; simpl; [done|].
  by apply IH, insertSorted_sorted.
Qed.

Lemma insertionSort_sorted (x : list A) :
  StronglySorted (λ a b, less b a = false) (insertionSort less x).
Proof. apply fold_insertSorted_sorted. constructor. Qed.

End InsertionSort.

Lemma insertSorted_natural {A B : Type} (f : A → B)
    (lessA : A → A → bool) (lessB : B → B → bool) (a : A) (x : list A) :
  (∀ a b, lessB (f a) (f b) = lessA a b) →
  insertSorted lessB (f a) (f <$> x) = f <$> insertSorted lessA a x.
Proof.
  intros Hf. induction x as [|b x IH]; csimpl; [done|].
  rewrite Hf. destruct (lessA a b); csimpl; [done|]. by rewrite IH.
Qed.

Lemma insertionSort_natural {A B : Type} (f : A → B)
    (lessA : A → A → bool) (lessB : B → B → bool) (x : list A) :
  (∀ a b, lessB (f a) (f b) = lessA a b) →
  insertionSort lessB (f <$> x) = f <$> insertionSort lessA x.
Proof.
  intros Hf. unfold insertionSort.
  change (@nil B) with (f <$> @nil A). generalize (@nil A) as acc.
  induction x as [|a x IH]; intros acc; csimpl; [done|].
  rewrite <- IH. f_equal. by apply insertSorted_natural.
Qed.

Definition insertionSorter : SliceSorter := {|
  sort_Slice := @insertionSort;
  sort_Slice_perm := @insertionSort_perm;
  sort_Slice_sorted := λ A less x Hless, insertionSort_sorted less Hless x;
  sort_Slice_natural := @insertionSort_natural
|}.

(** ** When the sorted slice does not depend on the sorter

    A sorted permutation of a slice is unique as soon as elements that
    [less] does not separate are equal; every sorter then returns what the
    reference sorter returns, and a sequence of calls can be evaluated. *)

Lemma lessByPathLength_ordering : LessOrdering lessByPathLength.
Proof.
  split; unfold lessByPathLength; intros;
    repeat match goal with
           | H : (_ <? _)%nat = true |- _ => apply Nat.ltb_lt in H
           | H : (_ <? _)%nat = false |- _ => apply Nat.ltb_ge in H
           end;
    first [apply Nat.ltb_lt | apply Nat.ltb_ge]; lia.
Qed.

Lemma sorted_perm_unique {A : Type} (less : A → A → bool) (x y : list A) :
  (∀ a b, a ∈ x → b ∈ x → less a b = false → less b a = false → a = b) →
  StronglySorted (λ a b, less b a = false) x →
  StronglySorted (λ a b, less b a = false) y →
  x ≡ₚ y → x = y.
Proof.
  intros Hkey Hx Hy Hperm.
  apply (StronglySorted_unique_strong (λ a b, less b a = false)); [|done..].
  intros a b Ha Hb Hba Hab. rewrite <- Hperm in Hb. by apply Hkey.
Qed.

Lemma keyDetermined_spec {A : Type} `{EqDecision A} (less : A → A → bool)
    (x : list A) (a b : A) :
  keyDetermined less x = true →
  a ∈ x → b ∈ x → less a b = false → less b a = false → a = b.
Proof.
  unfold keyDetermined. rewrite forallb_forall.
  intros Hall Ha Hb Hab Hba.
  specialize (Hall a (proj1 (list_elem_of_In _ _) Ha)).
  rewrite forallb_forall in Hall.
  specialize (Hall b (proj1 (list_elem_of_In _ _) Hb)).
  rewrite Hab, Hba in Hall. simpl in Hall. by apply bool_decide_eq_true in Hall.
Qed.

Lemma sort_Slice_canonical `{sorter : SliceSorter} {A : Type} `{EqDecision A}
    (less : A → A → bool) (x : list A) :
  LessOrdering less →
  keyDetermined less x = true →
  sort_Slice less x = insertionSort less x.
Proof.
  intros Hless Hkey. apply (sorted_perm_unique less).
  - intros a b Ha Hb. rewrite sort_Slice_perm in Ha, Hb.
    by apply (keyDetermined_spec less x).
  - by apply sort_Slice_sorted.
  - by apply insertionSort_sorted.
  - by rewrite sort_Slice_perm, insertionSort_perm.
Qed.

Lemma step_canonical `{sorter : SliceSorter} (st : state) (o : op) :
  opCanonical st o = true → step st o = step (sorter := insertionSorter) st o.
Proof.
  destruct o as [p mt d|p]; simpl; [|done].
  unfold AddRoute. destruct (String.eqb mt "exact"); [done|].
  destruct (list_find _ _) as [[i r]|]; [done|].
  intros Hkey. simpl.
  by rewrite (sort_Slice_canonical _ _ lessByPathLength_ordering Hkey).
Qed.

Lemma run_canonical `{sorter : SliceSorter} (ops : list op) (st : state) :
  runCanonical (sorter := insertionSorter) ops st = true →
  run ops st = run (sorter := insertionSorter) ops st.
Proof.
  revert st. induction ops as [|o ops IH]; intros st; simpl; [done|].
  intros [Ho Hops]%andb_true_iff.
  rewrite (step_canonical st o Ho). by apply IH.
Qed.

(** ** The match relation of the prefix scan *)

Lemma prefixMatch_spec (p : string) (r : route) :
  prefixMatch p r = true ↔ prefixMatches p r.
Proof.
  unfold prefixMatch, prefixMatches.
  rewrite !andb_true_iff, negb_true_iff, Nat.leb_le, Nat.eqb_neq, String.eqb_eq.
  intuition lia.
Qed.

Lemma prefixMatch_false (p : string) (r : route) :
  prefixMatch p r = false ↔ ¬ prefixMatches p r.
Proof.
  rewrite <- prefixMatch_spec. destruct (prefixMatch p r); intuition congruence.
Qed.

(** Two records that match the same path with paths of the same length have
    the same path. *)
Lemma prefixMatches_same_length (p : string) (r1 r2 : route) :
  prefixMatches p r1 → prefixMatches p r2 →
  String.length (path r1) = String.length (path r2) → path r1 = path r2.
Proof. intros (_ & _ & H1) (_ & _ & H2) Hlen. rewrite H1, H2. by rewrite Hlen. Qed.

(** ** [flushDynamicRoutes] *)

Lemma flushEntry_lookup (m : gmap string route) (q p : string) :
  flushEntry m q !! p =
    if bool_decide (p = q) && bool_decide (p ≠ "") && isDynamic m p
    then None else m !! p.
Proof.
  unfold flushEntry, isDynamic.
  destruct (decide (p = q)) as [->|Hne].
  - rewrite bool_decide_eq_true_2 by done. simpl.
    destruct (decide (q ≠ "")) as [Hq|Hq].
    + rewrite bool_decide_eq_true_2 by done. simpl.
      destruct (m !! q) as [dR|] eqn:Hm; [|by rewrite Hm].
      destruct (dynamicEntry dR); [apply lookup_delete_eq | done].
    + rewrite bool_decide_eq_false_2 by done. done.
  - rewrite (bool_decide_eq_false_2 (p = q)) by done. simpl.
    destruct (decide (q ≠ "")); [|done].
    destruct (m !! q) as [dR|]; [|done].
    destruct (dynamicEntry dR); [by apply lookup_delete_ne | done].
Qed.

Lemma fold_flushEntry_lookup (l : list string) (m : gmap string route)
    (p : string) :
  fold_left flushEntry l m !! p =
    if bool_decide (p ∈ l) && bool_decide (p ≠ "") && isDynamic m p
    then None else m !! p.
Proof.
  revert m. induction l as [|q l IH]; intros m; simpl.
  - done.
  - rewrite IH. unfold isDynamic at 1. rewrite flushEntry_lookup.
    destruct (decide (p = q)) as [->|Hne].
    + rewrite (bool_decide_eq_true_2 (q = q)) by done.
      rewrite (bool_decide_eq_true_2 (q ∈ q :: l)) by left. simpl.
      destruct (bool_decide (q ≠ "")); simpl.
      * destruct (isDynamic m q) eqn:Hdyn; simpl.
        -- by rewrite andb_false_r.
        -- unfold isDynamic in Hdyn. rewrite Hdyn. by rewrite andb_false_r.
      * by rewrite andb_false_r.
    + rewrite (bool_decide_eq_false_2 (p = q)) by done. simpl.
      fold (isDynamic m p).
      rewrite (bool_decide_ext (p ∈ q :: l) (p ∈ l)); [done|].
      rewrite elem_of_cons. tauto.
Qed.

Lemma flush_exact_lookup (st : state) (p : string) :
  exactMatchTable (flushDynamicRoutes st) !! p =
    if bool_decide (p ∈ dynamicEntries st) && bool_decide (p ≠ "")
       && isDynamic (exactMatchTable st) p
    then None else exactMatchTable st !! p.
Proof. apply fold_flushEntry_lookup. Qed.

(** A record placed by a caller survives the flush. *)
Lemma flush_keeps_static (st : state) (p : string) (r : route) :
  exactMatchTable st !! p = Some r → dynamicEntry r = false →
  exactMatchTable (flushDynamicRoutes st) !! p = Some r.
Proof.
  intros Hp Hr. rewrite flush_exact_lookup. unfold isDynamic.
  rewrite Hp, Hr. by rewrite andb_false_r.
Qed.

(** C7. [flushDynamicRoutes] deletes the exact-match entry of a path recorded
    in [dynamicEntries] only if that entry is still marked dynamic: a record
    with [dynamicEntry = false] is kept as it is, an entry that disappears was
    dynamic and recorded, no entry is added or altered, a recorded dynamic
    entry (of a non-empty path) is deleted, and an entry that a lookup cached
    and a caller then registered as an exact route survives.  After the flush
    [dynamicEntries] is empty and the prefix table is untouched. *)
Theorem flushDynamicRoutes_spec `{sorter : SliceSorter} (st : state) :
  dynamicEntries (flushDynamicRoutes st) = []
  ∧ prefixRoutesTable (flushDynamicRoutes st) = prefixRoutesTable st
  ∧ (∀ p r, exactMatchTable st !! p = Some r → dynamicEntry r = false →
            exactMatchTable (flushDynamicRoutes st) !! p = Some r)
  ∧ (∀ p r, exactMatchTable st !! p = Some r →
            exactMatchTable (flushDynamicRoutes st) !! p = None →
            dynamicEntry r = true ∧ p ∈ dynamicEntries st ∧ p ≠ "")
  ∧ (∀ p, exactMatchTable (flushDynamicRoutes st) !! p = None
          ∨ exactMatchTable (flushDynamicRoutes st) !! p
            = exactMatchTable st !! p)
  ∧ (∀ p r, p ∈ dynamicEntries st → p ≠ "" →
            exactMatchTable st !! p = Some r → dynamicEntry r = true →
            exactMatchTable (flushDynamicRoutes st) !! p = None)
  ∧ (∀ p d,
       let cached := snd (RouteLookup st p) in
       let registered := snd (AddRoute cached p "exact" d) in
       exactMatchTable (flushDynamicRoutes registered) !! p
       = Some (mkRoute p "exact" d false)).
Proof.
  split; [done|]. split; [done|]. split; [apply flush_keeps_static|].
  split; [|split; [|split]].
  - intros p r Hp. rewrite flush_exact_lookup. unfold isDynamic. rewrite Hp.
    destruct (bool_decide (p ∈ dynamicEntries st)) eqn:Hin;
      destruct (bool_decide (p ≠ "")) eqn:Hne;
      destruct (dynamicEntry r); simpl; try discriminate.
    intros _. apply bool_decide_eq_true in Hin, Hne. done.
  - intros p. rewrite flush_exact_lookup.
    destruct (_ && _); [by left | by right].
  - intros p r Hin Hne Hp Hr. rewrite flush_exact_lookup. unfold isDynamic.
    rewrite Hp, Hr. by rewrite !bool_decide_eq_true_2.
  - intros p d cached registered. apply flush_keeps_static; [|done].
    subst registered. unfold AddRoute. simpl. apply lookup_insert_eq.
Qed.

(** ** [AddRoute] branch by branch *)

Section AddRouteFacts.
Context `{sorter : SliceSorter}.

Lemma AddRoute_exact (st : state) (p d : string) :
  AddRoute st p "exact" d =
    (None, mkState (prefixRoutesTable st)
                   (<[p := mkRoute p "exact" d false]> (exactMatchTable st))
                   (dynamicEntries st)).
Proof. done. Qed.

Lemma AddRoute_modify (st : state) (p mt d : string) (i : nat) (r : route) :
  mt ≠ "exact" →
  list_find (λ r, path r = p) (prefixRoutesTable st) = Some (i, r) →
  AddRoute st p mt d =
    (None, flushDynamicRoutes
             (mkState (alter (setDestination d) i (prefixRoutesTable st))
                      (exactMatchTable st) (dynamicEntries st))).
Proof.
  intros Hmt%String.eqb_neq Hfind. unfold AddRoute. by rewrite Hmt, Hfind.
Qed.

Lemma AddRoute_insert (st : state) (p mt d : string) :
  mt ≠ "exact" →
  list_find (λ r, path r = p) (prefixRoutesTable st) = None →
  AddRoute st p mt d =
    (None, mkState (sort_Slice lessByPathLength
                      (prefixRoutesTable st ++ [mkRoute p mt d false]))
                   (exactMatchTable st) (dynamicEntries st)).
Proof.
  intros Hmt%String.eqb_neq Hfind. unfold AddRoute. by rewrite Hmt, Hfind.
Qed.

Lemma AddRoute_error_nil (st : state) (p mt d : string) :
  fst (AddRoute st p mt d) = None.
Proof.
  unfold AddRoute. destruct (String.eqb mt "exact"); [done|].
  by destruct (list_find _ _) as [[i r]|].
Qed.

End AddRouteFacts.

(** C2, as amended.  Every call of [AddRoute] returns a nil error, whatever
    the match type: no match type is rejected, and in particular the two
    recognised literals succeed. *)
Theorem AddRoute_never_fails `{sorter : SliceSorter} (st : state)
    (p mt d : string) :
  fst (AddRoute st p mt d) = None
  ∧ fst (AddRoute st p "exact" d) = None
  ∧ fst (AddRoute st p "prefix" d) = None.
Proof. split; [|split]; apply AddRoute_error_nil. Qed.

(** C2, as stated, fails: with the match type "exat", which is neither of the
    two literals, the error returned from the initial state is nil. *)
Lemma AddRoute_unknown_matchType_not_rejected :
  ¬ (fst (AddRoute (sorter := insertionSorter) init "/x" "exat" "d") ≠ None
     ↔ "exat" ≠ "exact" ∧ "exat" ≠ "prefix").
Proof.
  intros [_ Hrej]. apply Hrej; [by split|]. apply AddRoute_error_nil.
Qed.

(** ** [RouteLookup] branch by branch *)

Lemma RouteLookup_hit (st : state) (p : string) (rte : route) :
  exactMatchTable st !! p = Some rte →
  RouteLookup st p = ((destination rte, None), st).
Proof. intros Hp. unfold RouteLookup. by rewrite Hp. Qed.

Lemma find_prefixMatch_None (p : string) (tbl : list route) :
  List.find (prefixMatch p) tbl = None ↔ ∀ r, r ∈ tbl → ¬ prefixMatches p r.
Proof.
  split.
  - intros Hnone r Hr%list_elem_of_In. apply prefixMatch_false.
    by apply (find_none _ _ Hnone).
  - intros Hall. destruct (List.find _ _) as [r|] eqn:Hfind; [|done].
    apply find_some in Hfind as [Hr%list_elem_of_In Hm%prefixMatch_spec].
    by destruct (Hall r Hr).
Qed.

Lemma RouteLookup_error_nil (st : state) (p : string) :
  snd (fst (RouteLookup st p)) = None.
Proof.
  unfold RouteLookup. destruct (exactMatchTable st !! p); [done|].
  by destruct (List.find _ _).
Qed.

(** What a lookup returns is what the exact-match table holds for the path
    once the lookup has returned. *)
Lemma RouteLookup_cached (st : state) (p : string) :
  ∃ r, exactMatchTable (snd (RouteLookup st p)) !! p = Some r
       ∧ destination r = fst (fst (RouteLookup st p)).
Proof.
  unfold RouteLookup. destruct (exactMatchTable st !! p) as [rte|] eqn:Hp.
  - by exists rte.
  - destruct (List.find _ _) as [r|]; simpl;
      eexists; (split; [apply lookup_insert_eq | done]).
Qed.

(** A lookup leaves the prefix table alone and every other path's entry. *)
Lemma RouteLookup_prefixRoutesTable (st : state) (p : string) :
  prefixRoutesTable (snd (RouteLookup st p)) = prefixRoutesTable st.
Proof.
  unfold RouteLookup. destruct (exactMatchTable st !! p); [done|].
  by destruct (List.find _ _).
Qed.

Lemma RouteLookup_exact_other (st : state) (p q : string) :
  p ≠ q →
  exactMatchTable (snd (RouteLookup st p)) !! q = exactMatchTable st !! q.
Proof.
  intros Hne. unfold RouteLookup. destruct (exactMatchTable st !! p); [done|].
  destruct (List.find _ _); simpl; by apply lookup_insert_ne.
Qed.

Lemma RouteLookup_exact_present (st : state) (p q : string) (r : route) :
  exactMatchTable st !! q = Some r →
  exactMatchTable (snd (RouteLookup st p)) !! q = Some r.
Proof.
  intros Hq. destruct (decide (p = q)) as [->|Hne].
  - by rewrite (RouteLookup_hit st q r Hq).
  - by rewrite RouteLookup_exact_other.
Qed.

(** C6. A path with no entry in the exact-match table and matched by no record
    of the prefix table is answered with "default-service" and a nil error,
    and the outcome is cached as a prefix hit is: a dynamic exact-match entry
    is created at the path and the path is appended to [dynamicEntries]. *)
Theorem RouteLookup_default (st : state) (p : string) :
  exactMatchTable st !! p = None →
  (∀ r, r ∈ prefixRoutesTable st → ¬ prefixMatches p r) →
  RouteLookup st p =
    (("default-service", None),
     mkState (prefixRoutesTable st)
             (<[p := mkRoute p "exact" "default-service" true]>
                (exactMatchTable st))
             (dynamicEntries st ++ [p])).
Proof.
  intros Hp Hnone%find_prefixMatch_None. unfold RouteLookup.
  by rewrite Hp, Hnone.
Qed.

(** C6 in the initial state, for the path "/api/3". *)
Lemma RouteLookup_default_witness :
  RouteLookup init "/api/3" =
    (("default-service", None),
     mkState (prefixRoutesTable init)
             (<["/api/3" := mkRoute "/api/3" "exact" "default-service" true]>
                (exactMatchTable init))
             (dynamicEntries init ++ ["/api/3"])).
Proof.
  apply RouteLookup_default.
  - reflexivity.
  - intros r Hr. apply prefixMatch_false.
    apply elem_of_replicate in Hr as [-> _]. reflexivity.
Defined.

(** ** Exact routes and prefix routes side by side *)

Section Coexistence.
Context `{sorter : SliceSorter}.

(** A registration that is not an exact one leaves a record for the path,
    with the new destination, in the prefix table. *)
Lemma AddRoute_prefix_registered (st : state) (p mt d : string) :
  mt ≠ "exact" →
  ∃ r, r ∈ prefixRoutesTable (snd (AddRoute st p mt d))
       ∧ path r = p ∧ destination r = d.
Proof.
  intros Hmt.
  destruct (list_find (λ r, path r = p) (prefixRoutesTable st))
    as [[i r]|] eqn:Hfind.
  - rewrite (AddRoute_modify st p mt d i r Hmt Hfind). simpl.
    apply list_find_Some in Hfind as (Hi & Hr & _).
    exists (setDestination d r). split; [|done].
    apply list_elem_of_lookup. exists i.
    by rewrite list_lookup_alter_eq, Hi.
  - rewrite (AddRoute_insert st p mt d Hmt Hfind). simpl.
    exists (mkRoute p mt d false). split; [|done].
    rewrite sort_Slice_perm. apply elem_of_app. right. by left.
Qed.

(** It never removes or changes an entry that a caller placed in the
    exact-match table. *)
Lemma AddRoute_prefix_keeps_static (st : state) (p mt d q : string)
    (r : route) :
  mt ≠ "exact" →
  exactMatchTable st !! q = Some r → dynamicEntry r = false →
  exactMatchTable (snd (AddRoute st p mt d)) !! q = Some r.
Proof.
  intros Hmt Hq Hr.
  destruct (list_find (λ r, path r = p) (prefixRoutesTable st))
    as [[i r']|] eqn:Hfind.
  - rewrite (AddRoute_modify st p mt d i r' Hmt Hfind). simpl.
    by apply flush_keeps_static.
  - by rewrite (AddRoute_insert st p mt d Hmt Hfind).
Qed.

(** C4. Registering [p] once as an exact route (destination [d1]) and once as
    a prefix route (destination [d2]), in either order, leaves both routes in
    place: the second call keeps what the first one stored, and a lookup of
    [p] then answers [d1]. *)
Theorem exact_and_prefix_coexist (st : state) (p d1 d2 : string) :
  let exactFirst := snd (AddRoute st p "exact" d1) in
  let prefixFirst := snd (AddRoute st p "prefix" d2) in
  coexist (snd (AddRoute exactFirst p "prefix" d2)) p d1 d2
  ∧ exactMatchTable (snd (AddRoute exactFirst p "prefix" d2)) !! p
    = exactMatchTable exactFirst !! p
  ∧ coexist (snd (AddRoute prefixFirst p "exact" d1)) p d1 d2
  ∧ prefixRoutesTable (snd (AddRoute prefixFirst p "exact" d1))
    = prefixRoutesTable prefixFirst.
Proof.
  intros exactFirst prefixFirst.
  assert ("prefix" ≠ "exact") as Hmt by done.
  assert (exactMatchTable exactFirst !! p = Some (mkRoute p "exact" d1 false))
    as Hexact by (subst exactFirst; simpl; apply lookup_insert_eq).
  assert (exactMatchTable (snd (AddRoute exactFirst p "prefix" d2)) !! p
          = Some (mkRoute p "exact" d1 false)) as Hkept
    by (by apply AddRoute_prefix_keeps_static).
  split; [|split; [|split]].
  - split; [exact Hkept|]. split; [by apply AddRoute_prefix_registered|].
    by rewrite (RouteLookup_hit _ _ _ Hkept).
  - by rewrite Hkept, Hexact.
  - rewrite AddRoute_exact. split; [apply lookup_insert_eq|].
    split; [by apply AddRoute_prefix_registered|].
    erewrite RouteLookup_hit; [|apply lookup_insert_eq]. done.
  - by rewrite AddRoute_exact.
Qed.

End Coexistence.

(** ** Invariants of the prefix table *)

Lemma lessByPathLength_false (a b : route) :
  lessByPathLength b a = false
  ↔ (String.length (path b) ≤ String.length (path a))%nat.
Proof. unfold lessByPathLength. rewrite Nat.ltb_ge. done. Qed.

Lemma sortedByPathLength_lookup (tbl : list route) (i j : nat) (a b : route) :
  sortedByPathLength tbl → (i < j)%nat →
  tbl !! i = Some a → tbl !! j = Some b →
  (String.length (path b) ≤ String.length (path a))%nat.
Proof.
  intros Hsorted. revert i j.
  induction Hsorted as [|c tbl Hs IH Hc]; intros i j Hij Hi Hj; [done|].
  destruct j as [|j]; [lia|]. simpl in Hj.
  destruct i as [|i]; simpl in Hi.
  - injection Hi as ->. apply lessByPathLength_false.
    rewrite Forall_forall in Hc. apply Hc.
    by apply list_elem_of_lookup_2 in Hj.
  - apply (IH i j); [lia|done..].
Qed.

Lemma sortedByPathLength_alter (tbl : list route) (i : nat) (d : string) :
  sortedByPathLength tbl →
  sortedByPathLength (alter (setDestination d) i tbl).
Proof.
  intros Hsorted. revert i.
  induction Hsorted as [|c tbl Hs IH Hc]; intros [|i]; simpl;
    try (by constructor).
  constructor; [apply IH|].
  apply Forall_alter; [done|]. by intros x _ Hx.
Qed.

Lemma recordsFor_alter (p : string) (tbl : list route) (i : nat) (d : string) :
  length (recordsFor p (alter (setDestination d) i tbl))
  = length (recordsFor p tbl).
Proof.
  unfold recordsFor. revert i.
  induction tbl as [|c tbl IH]; intros [|i]; simpl; [done..| |].
  - rewrite !filter_cons. simpl. by destruct (decide (path c = p)).
  - rewrite !filter_cons.
    destruct (decide (path c = p)); simpl; [f_equal|]; apply IH.
Qed.

Lemma recordsFor_absent (p : string) (tbl : list route) :
  list_find (λ r, path r = p) tbl = None → recordsFor p tbl = [].
Proof.
  rewrite list_find_None, Forall_forall. intros Hnone.
  unfold recordsFor. destruct (filter _ tbl) as [|r l] eqn:Hf; [done|].
  assert (r ∈ filter (λ r, path r = p) tbl) as Hr by (rewrite Hf; left).
  apply list_elem_of_filter in Hr as [Hp Hr]. by destruct (Hnone r Hr).
Qed.

Lemma tableInvariant_init : tableInvariant (prefixRoutesTable init).
Proof.
  split.
  - unfold sortedByPathLength. simpl. repeat constructor.
  - intros p Hp. replace (recordsFor p (prefixRoutesTable init)) with (@nil route);
      [simpl; lia|].
    symmetry. apply recordsFor_absent, list_find_None, Forall_forall.
    intros r Hr%elem_of_replicate_inv. by subst r.
Qed.

Section Invariants.
Context `{sorter : SliceSorter}.

Lemma tableInvariant_AddRoute (st : state) (p mt d : string) :
  tableInvariant (prefixRoutesTable st) →
  tableInvariant (prefixRoutesTable (snd (AddRoute st p mt d))).
Proof.
  intros [Hsorted Hone]. destruct (decide (mt = "exact")) as [->|Hmt].
  { by rewrite AddRoute_exact. }
  destruct (list_find (λ r, path r = p) (prefixRoutesTable st))
    as [[i r]|] eqn:Hfind.
  - rewrite (AddRoute_modify st p mt d i r Hmt Hfind). simpl. split.
    + by apply sortedByPathLength_alter.
    + intros q Hq. rewrite recordsFor_alter. by apply Hone.
  - rewrite (AddRoute_insert st p mt d Hmt Hfind). simpl. split.
    + apply sort_Slice_sorted, lessByPathLength_ordering.
    + intros q Hq. unfold recordsFor. rewrite sort_Slice_perm, filter_app.
      rewrite length_app. fold (recordsFor q (prefixRoutesTable st)).
      rewrite filter_cons, filter_nil. simpl.
      destruct (decide (p = q)) as [<-|Hpq]; simpl.
      * rewrite (recordsFor_absent p _ Hfind). simpl. lia.
      * specialize (Hone q Hq). lia.
Qed.

Lemma tableInvariant_step (st : state) (o : op) :
  tableInvariant (prefixRoutesTable st) →
  tableInvariant (prefixRoutesTable (step st o)).
Proof.
  destruct o as [p mt d|p]; simpl.
  - apply tableInvariant_AddRoute.
  - by rewrite RouteLookup_prefixRoutesTable.
Qed.

Lemma tableInvariant_run (ops : list op) (st : state) :
  tableInvariant (prefixRoutesTable st) →
  tableInvariant (prefixRoutesTable (run ops st)).
Proof.
  revert st. induction ops as [|o ops IH]; intros st Hst; simpl; [done|].
  by apply IH, tableInvariant_step.
Qed.

Lemma tableInvariant_reachable (st : state) :
  reachable st → tableInvariant (prefixRoutesTable st).
Proof. intros [ops ->]. apply tableInvariant_run, tableInvariant_init. Qed.

End Invariants.

(** ** Longest-prefix match *)

(** In a table sorted by decreasing path length the first record that
    matches is a longest match. *)
Lemma find_longestMatch (p : string) (tbl : list route) (r : route) :
  sortedByPathLength tbl →
  List.find (prefixMatch p) tbl = Some r → longestMatch p tbl r.
Proof.
  intros Hsorted. induction Hsorted as [|c tbl Hs IH Hc]; simpl; [done|].
  destruct (prefixMatch p c) eqn:Hm.
  - intros [= <-]. split; [left|]. split; [by apply prefixMatch_spec|].
    intros r' [->|Hr']%elem_of_cons _; [done|].
    rewrite Forall_forall in Hc. by apply lessByPathLength_false, Hc.
  - intros Hfind. destruct (IH Hfind) as (Hr & Hmr & Hmax).
    split; [by right|]. split; [done|].
    intros r' [->|Hr']%elem_of_cons Hm'; [|by apply Hmax].
    apply prefixMatch_spec in Hm'. congruence.
Qed.

(** With at most one record per non-empty path the longest match is unique. *)
Lemma longestMatch_unique (p : string) (tbl : list route) (r1 r2 : route) :
  tableInvariant tbl →
  longestMatch p tbl r1 → longestMatch p tbl r2 → r1 = r2.
Proof.
  intros [_ Hone] (Hr1 & Hm1 & Hmax1) (Hr2 & Hm2 & Hmax2).
  assert (path r1 = path r2) as Hpath.
  { apply (prefixMatches_same_length p); [done..|].
    apply Nat.le_antisymm; [by apply Hmax2 | by apply Hmax1]. }
  assert (path r1 ≠ "") as Hne.
  { destruct Hm1 as (_ & Hpos & _). intros Hempty. rewrite Hempty in Hpos.
    simpl in Hpos. lia. }
  specialize (Hone (path r1) Hne).
  assert (r1 ∈ recordsFor (path r1) tbl) as Hin1
    by (by apply list_elem_of_filter).
  assert (r2 ∈ recordsFor (path r1) tbl) as Hin2
    by (by apply list_elem_of_filter).
  destruct (recordsFor (path r1) tbl) as [|a [|b l]]; simpl in Hone.
  - by apply not_elem_of_nil in Hin1.
  - apply list_elem_of_singleton in Hin1, Hin2. congruence.
  - lia.
Qed.

(** C3. In a state the program can reach, a path with no entry in the
    exact-match table that two (or more) records of the prefix table match is
    answered with the destination of the matching record with the longest
    path; that record is unique.  A record matches [p] iff
    [len(p) >= len(record.path) > 0] and the record's path is the leading
    substring of [p] of that length. *)
Theorem RouteLookup_longest_prefix `{sorter : SliceSorter} (st : state)
    (p : string) (i j : nat) (r1 r2 : route) :
  reachable st →
  exactMatchTable st !! p = None →
  i ≠ j →
  prefixRoutesTable st !! i = Some r1 → prefixMatches p r1 →
  prefixRoutesTable st !! j = Some r2 → prefixMatches p r2 →
  ∃ r, longestMatch p (prefixRoutesTable st) r
       ∧ (∀ r', longestMatch p (prefixRoutesTable st) r' → r' = r)
       ∧ fst (RouteLookup st p) = (destination r, None).
Proof.
  intros Hreach Hp _ Hi Hm1 _ _.
  pose proof (tableInvariant_reachable st Hreach) as Hinv.
  destruct (List.find (prefixMatch p) (prefixRoutesTable st)) as [r|] eqn:Hfind.
  - exists r. pose proof (find_longestMatch p _ r (proj1 Hinv) Hfind) as Hr.
    split; [done|]. split.
    + intros r' Hr'. by apply (longestMatch_unique p (prefixRoutesTable st)).
    + unfold RouteLookup. by rewrite Hp, Hfind.
  - destruct (proj1 (find_prefixMatch_None p _) Hfind r1); [|done].
    by apply list_elem_of_lookup_2 in Hi.
Qed.

(** C3 after the registrations of the worked example, for "/api/2/1/2",
    which the prefix routes "/api/2/1" and "/api/2/" both match. *)
Lemma RouteLookup_longest_prefix_witness :
  ∃ r, longestMatch "/api/2/1/2"
         (prefixRoutesTable (run (sorter := insertionSorter) exampleRoutes init)) r
       ∧ (∀ r', longestMatch "/api/2/1/2"
                  (prefixRoutesTable
                     (run (sorter := insertionSorter) exampleRoutes init)) r' →
                r' = r)
       ∧ fst (RouteLookup (run (sorter := insertionSorter) exampleRoutes init)
                "/api/2/1/2")
         = (destination r, None).
Proof.
  apply (RouteLookup_longest_prefix (sorter := insertionSorter) _ "/api/2/1/2"
           1 2 (mkRoute "/api/2/1" "prefix" "service-3" false)
           (mkRoute "/api/2/" "prefix" "service-4" false)).
  - by exists exampleRoutes.
  - vm_compute. reflexivity.
  - lia.
  - vm_compute. reflexivity.
  - apply prefixMatch_spec. vm_compute. reflexivity.
  - vm_compute. reflexivity.
  - apply prefixMatch_spec. vm_compute. reflexivity.
Defined.

(** ** Re-registration of a prefix path *)

Lemma fmap_path_alter (tbl : list route) (i : nat) (d : string) :
  path <$> alter (setDestination d) i tbl = path <$> tbl.
Proof.
  rewrite (list_fmap_alter path (setDestination d) id).
  - by apply list_alter_id.
  - by apply Forall_forall.
Qed.

(** When the table already has a record for the path, a registration that is
    not an exact one changes no path and adds no record: the first record
    with that path gets the new destination. *)
Lemma AddRoute_reregister `{sorter : SliceSorter} (st : state)
    (p mt d : string) (r : route) :
  mt ≠ "exact" → r ∈ prefixRoutesTable st → path r = p →
  path <$> prefixRoutesTable (snd (AddRoute st p mt d))
  = path <$> prefixRoutesTable st
  ∧ length (prefixRoutesTable (snd (AddRoute st p mt d)))
    = length (prefixRoutesTable st).
Proof.
  intros Hmt Hr Hp.
  destruct (list_find_elem_of (λ r, path r = p) _ r Hr Hp) as [[i r'] Hfind].
  rewrite (AddRoute_modify st p mt d i r' Hmt Hfind). simpl.
  split; [apply fmap_path_alter | apply length_alter].
Qed.

(** C8, as stated, fails for the empty path: [init] fills the prefix table
    with ten zero-valued records, so once the empty path is registered as a
    prefix route the table holds ten records for that path. *)
Lemma empty_prefix_path_has_ten_records :
  let st := run (sorter := insertionSorter) [OpAddRoute "" "prefix" "d"] init in
  fst (AddRoute (sorter := insertionSorter) init "" "prefix" "d") = None
  ∧ length (recordsFor "" (prefixRoutesTable st)) = 10
  ∧ ¬ (length (recordsFor "" (prefixRoutesTable st)) ≤ 1)%nat.
Proof.
  intros st. split; [reflexivity|].
  assert (length (recordsFor "" (prefixRoutesTable st)) = 10) as ->
    by (vm_compute; reflexivity).
  split; [done | lia].
Qed.

(** ** Repeating a lookup *)

Section Repeat.
Context `{sorter : SliceSorter}.

Lemma run_keeps_entry (p : string) (r : route) (ops : list op) (st : state) :
  Forall (keepsAnswerFor p) ops →
  exactMatchTable st !! p = Some r →
  exactMatchTable (run ops st) !! p = Some r.
Proof.
  intros Hops. revert st.
  induction Hops as [|o ops Ho _ IH]; intros st Hp; simpl; [done|].
  apply IH. destruct o as [q mt d|q]; simpl.
  - destruct Ho as [-> Hq]. rewrite AddRoute_exact. simpl.
    by rewrite lookup_insert_ne.
  - by apply RouteLookup_exact_present.
Qed.

(** C5, as amended.  Two lookups of the same path return the same destination
    (and a nil error) when the calls between them are lookups and
    registrations of exact routes for other paths: no registration of a
    prefix route and no registration of an exact route for the path itself.
    The first answer may be "default-service". *)
Theorem RouteLookup_repeatable (st : state) (p : string) (between : list op) :
  Forall (keepsAnswerFor p) between →
  fst (RouteLookup (run between (snd (RouteLookup st p))) p)
  = fst (RouteLookup st p).
Proof.
  intros Hops. destruct (RouteLookup_cached st p) as (r & Hr & Hd).
  rewrite (RouteLookup_hit _ p r (run_keeps_entry p r between _ Hops Hr)).
  pose proof (RouteLookup_error_nil st p) as Herr.
  destruct (fst (RouteLookup st p)) as [dst err]. simpl in *. congruence.
Qed.

End Repeat.

(** C5, as amended, for "/api/3" with a lookup and an exact registration of
    other paths in between. *)
Lemma RouteLookup_repeatable_witness :
  fst (RouteLookup
         (run (sorter := insertionSorter)
            [OpRouteLookup "/api/4"; OpAddRoute "/api/5" "exact" "service-9"]
            (snd (RouteLookup init "/api/3")))
         "/api/3")
  = fst (RouteLookup init "/api/3").
Proof.
  apply (RouteLookup_repeatable (sorter := insertionSorter)).
  repeat constructor. simpl. discriminate.
Defined.

(** C5, as stated, fails: between the two lookups of "/x" there is no
    registration of a prefix route, only one of an exact route for "/x", and
    the answers differ. *)
Lemma RouteLookup_changes_after_exact_registration :
  let first := RouteLookup init "/x" in
  let between := [OpAddRoute "/x" "exact" "service-1"] in
  let second :=
    RouteLookup (run (sorter := insertionSorter) between (snd first)) "/x" in
  fst first = ("default-service", None)
  ∧ fst second = ("service-1", None)
  ∧ fst first ≠ fst second.
Proof. vm_compute. repeat split. discriminate. Qed.

(** ** The worked example *)

(** C9. From the initial state of the program the worked example gives
    /api/1 → service-1, /api/1/2 → service-5, /api/3 → default-service,
    /api/2/1/2 → service-3, /api/2/ → service-4 and, after "/api/2/" is
    registered again as a prefix route to service-7, /api/2/ → service-7;
    every registration returns a nil error.  The same holds from a state
    whose tables are all empty. *)
Theorem worked_example `{sorter : SliceSorter} :
  Forall (λ o, match o with
               | OpAddRoute p mt d => ∀ st, fst (AddRoute st p mt d) = None
               | OpRouteLookup _ => True
               end) exampleRoutes
  ∧ workedExample init
  ∧ workedExample emptyState.
Proof.
  split; [|split].
  - repeat constructor; intros st; apply AddRoute_error_nil.
  - unfold workedExample.
    rewrite (run_canonical exampleRoutes init) by (vm_compute; reflexivity).
    vm_compute. repeat split.
  - unfold workedExample.
    rewrite (run_canonical exampleRoutes emptyState) by (vm_compute; reflexivity).
    vm_compute. repeat split.
Qed.

(** ** Cache invalidation when the prefix table changes *)

Section Invalidation.
Context `{sorter : SliceSorter}.

(** Changing the destination of a registered prefix path flushes: the
    ledger is emptied and every dynamic entry it recorded for a non-empty
    path is gone from the exact-match table. *)
Lemma AddRoute_modify_flushes (st : state) (p mt d : string) (r : route) :
  mt ≠ "exact" → r ∈ prefixRoutesTable st → path r = p →
  dynamicEntries (snd (AddRoute st p mt d)) = []
  ∧ ∀ q rq, q ∈ dynamicEntries st → q ≠ "" →
            exactMatchTable st !! q = Some rq → dynamicEntry rq = true →
            exactMatchTable (snd (AddRoute st p mt d)) !! q = None.
Proof.
  intros Hmt Hr Hp.
  destruct (list_find_elem_of (λ r, path r = p) _ r Hr Hp) as [[i r'] Hfind].
  rewrite (AddRoute_modify st p mt d i r' Hmt Hfind). split; [done|].
  intros q rq Hq Hne Hrq Hdyn. cbn [snd]. rewrite flush_exact_lookup. simpl.
  unfold isDynamic. rewrite Hrq, Hdyn. by rewrite !bool_decide_eq_true_2.
Qed.

(** Registering a prefix path that the table does not have yet returns
    without a flush: the exact-match table and the ledger are as before. *)
Lemma AddRoute_insert_no_flush (st : state) (p mt d : string) :
  mt ≠ "exact" →
  list_find (λ r, path r = p) (prefixRoutesTable st) = None →
  exactMatchTable (snd (AddRoute st p mt d)) = exactMatchTable st
  ∧ dynamicEntries (snd (AddRoute st p mt d)) = dynamicEntries st.
Proof. intros Hmt Hfind. by rewrite (AddRoute_insert st p mt d Hmt Hfind). Qed.

(** C1 at its failing input.  "/api/2/x" is looked up in the initial state
    (answer: default-service, cached); then the prefix route "/api/2/" →
    service-4 is registered, which inserts a record that matches "/api/2/x".
    The call returns with the ledger and the cached entry still in place, and
    the next lookup of "/api/2/x" answers the stale default-service; after a
    flush it would answer service-4. *)
Theorem AddRoute_insert_leaves_stale_entry :
  let st1 := snd (RouteLookup init "/api/2/x") in
  let st2 := snd (AddRoute st1 "/api/2/" "prefix" "service-4") in
  fst (RouteLookup init "/api/2/x") = ("default-service", None)
  ∧ fst (AddRoute st1 "/api/2/" "prefix" "service-4") = None
  ∧ (∃ r, r ∈ prefixRoutesTable st2 ∧ prefixMatches "/api/2/x" r
          ∧ destination r = "service-4")
  ∧ "/api/2/x" ∈ dynamicEntries st2
  ∧ exactMatchTable st2 !! "/api/2/x"
    = Some (mkRoute "/api/2/x" "exact" "default-service" true)
  ∧ fst (RouteLookup st2 "/api/2/x") = ("default-service", None)
  ∧ fst (RouteLookup (flushDynamicRoutes st2) "/api/2/x") = ("service-4", None).
Proof.
  intros st1 st2.
  assert (st2 = snd (AddRoute (sorter := insertionSorter) st1 "/api/2/"
                       "prefix" "service-4")) as ->.
  { apply (step_canonical st1 (OpAddRoute "/api/2/" "prefix" "service-4")).
    vm_compute. reflexivity. }
  split; [reflexivity|]. split; [apply AddRoute_error_nil|].
  split.
  { exists (mkRoute "/api/2/" "prefix" "service-4" false).
    split; [|split; [apply prefixMatch_spec|]]; vm_compute; try reflexivity.
    left. }
  split; [vm_compute; repeat constructor|].
  repeat split; vm_compute; reflexivity.
Qed.

End Invalidation.

(** ** Match types other than "exact" *)

(** The prefix scan sees the table only through [routeView]. *)
Lemma find_prefixMatch_view (q : string) (t1 t2 : list route) :
  routeView <$> t1 = routeView <$> t2 →
  destination <$> List.find (prefixMatch q) t1
  = destination <$> List.find (prefixMatch q) t2.
Proof.
  revert t2. induction t1 as [|a t1 IH]; intros [|b t2] Hview;
    try discriminate; [done|].
  rewrite !fmap_cons in Hview.
  injection Hview as Hpath Hdest _ Hrest. simpl.
  assert (prefixMatch q a = prefixMatch q b) as ->
    by (unfold prefixMatch; by rewrite Hpath).
  destruct (prefixMatch q b); [simpl; by rewrite Hdest | by apply IH].
Qed.

Lemma RouteLookup_view (st1 st2 : state) (q : string) :
  exactMatchTable st1 = exactMatchTable st2 →
  routeView <$> prefixRoutesTable st1 = routeView <$> prefixRoutesTable st2 →
  fst (RouteLookup st1 q) = fst (RouteLookup st2 q).
Proof.
  intros Hexact Hview. unfold RouteLookup. rewrite Hexact.
  destruct (exactMatchTable st2 !! q); [done|].
  pose proof (find_prefixMatch_view q _ _ Hview) as Hfind.
  destruct (List.find _ (prefixRoutesTable st1)),
           (List.find _ (prefixRoutesTable st2));
    simpl in *; congruence.
Qed.

Section UnrecognizedMatchType.
Context `{sorter : SliceSorter}.

Lemma AddRoute_view (st : state) (p mt d : string) :
  mt ≠ "exact" →
  exactMatchTable (snd (AddRoute st p mt d))
  = exactMatchTable (snd (AddRoute st p "prefix" d))
  ∧ dynamicEntries (snd (AddRoute st p mt d))
    = dynamicEntries (snd (AddRoute st p "prefix" d))
  ∧ routeView <$> prefixRoutesTable (snd (AddRoute st p mt d))
    = routeView <$> prefixRoutesTable (snd (AddRoute st p "prefix" d)).
Proof.
  intros Hmt. assert ("prefix" ≠ "exact") as Hprefix by done.
  destruct (list_find (λ r, path r = p) (prefixRoutesTable st))
    as [[i r]|] eqn:Hfind.
  - by rewrite (AddRoute_modify st p mt d i r Hmt Hfind),
               (AddRoute_modify st p "prefix" d i r Hprefix Hfind).
  - rewrite (AddRoute_insert st p mt d Hmt Hfind),
            (AddRoute_insert st p "prefix" d Hprefix Hfind).
    simpl. split; [done|]. split; [done|].
    rewrite <- !(sort_Slice_natural _ _ routeView lessByPathLength
                   lessByViewLength) by done.
    by rewrite !fmap_app.
Qed.

(** C10. A call of [AddRoute] whose match type is not "exact", recognised or
    not, is processed as the registration of a prefix route.  It returns nil.
    If the prefix table has a record for the path, the first such record gets
    the new destination in place and the dynamic entries are flushed, and the
    state is the one the match type "prefix" gives.  If it has none, a record
    is added to the sorted table and nothing else changes.  In both cases
    the state differs from the one "prefix" gives at most in the [matchType]
    stored in the new record, and every later lookup answers the same. *)
Theorem AddRoute_unrecognized_is_prefix (st : state) (p mt d : string) :
  mt ≠ "exact" →
  let result := AddRoute st p mt d in
  let asPrefix := AddRoute st p "prefix" d in
  fst result = None
  ∧ exactMatchTable (snd result) = exactMatchTable (snd asPrefix)
  ∧ dynamicEntries (snd result) = dynamicEntries (snd asPrefix)
  ∧ routeView <$> prefixRoutesTable (snd result)
    = routeView <$> prefixRoutesTable (snd asPrefix)
  ∧ (∃ r, r ∈ prefixRoutesTable (snd result) ∧ path r = p ∧ destination r = d)
  ∧ (∀ q, fst (RouteLookup (snd result) q) = fst (RouteLookup (snd asPrefix) q))
  ∧ (∀ i r, list_find (λ r, path r = p) (prefixRoutesTable st) = Some (i, r) →
       snd result
       = flushDynamicRoutes
           (mkState (alter (setDestination d) i (prefixRoutesTable st))
                    (exactMatchTable st) (dynamicEntries st))
       ∧ snd result = snd asPrefix)
  ∧ (list_find (λ r, path r = p) (prefixRoutesTable st) = None →
       prefixRoutesTable (snd result)
       = sort_Slice lessByPathLength
           (prefixRoutesTable st ++ [mkRoute p mt d false])
       ∧ exactMatchTable (snd result) = exactMatchTable st
       ∧ dynamicEntries (snd result) = dynamicEntries st).
Proof.
  intros Hmt result asPrefix. subst result asPrefix.
  assert ("prefix" ≠ "exact") as Hprefix by done.
  destruct (AddRoute_view st p mt d Hmt) as (Hexact & Hdyn & Hview).
  split; [apply AddRoute_error_nil|].
  split; [exact Hexact|]. split; [exact Hdyn|]. split; [exact Hview|].
  split; [by apply AddRoute_prefix_registered|].
  split; [intros q; by apply RouteLookup_view|].
  split.
  - intros i r Hfind.
    by rewrite (AddRoute_modify st p mt d i r Hmt Hfind),
               (AddRoute_modify st p "prefix" d i r Hprefix Hfind).
  - intros Hfind. by rewrite (AddRoute_insert st p mt d Hmt Hfind).
Qed.

End UnrecognizedMatchType.

(** C10 for the match type "exat" in the initial state. *)
Lemma AddRoute_unrecognized_is_prefix_witness :
  fst (AddRoute (sorter := insertionSorter) init "/api/2/" "exat" "service-4")
  = None
  ∧ (∀ q, fst (RouteLookup
                 (snd (AddRoute (sorter := insertionSorter) init "/api/2/"
                         "exat" "service-4")) q)
          = fst (RouteLookup
                   (snd (AddRoute (sorter := insertionSorter) init "/api/2/"
                           "prefix" "service-4")) q)).
Proof.
  assert ("exat" ≠ "exact") as Hmt by discriminate.
  pose proof (AddRoute_unrecognized_is_prefix (sorter := insertionSorter)
                init "/api/2/" "exat" "service-4" Hmt) as H.
  simpl in H. split; [apply H|]. apply H.
Defined.

(** * Further properties of the engine *)

(** ** What the match test means *)

Lemma substring_prefix_append (a s : string) :
  substring 0 (String.length a) (a ++ s) = a.
Proof.
  induction a as [|c a IH]; simpl.
  - by destruct s.
  - by rewrite IH.
Qed.

Lemma length_string_append (a s : string) :
  String.length (a ++ s) = String.length a + String.length s.
Proof. induction a as [|c a IH]; simpl; [done | by rewrite IH]. Qed.

Lemma substring_prefix_split (a p : string) :
  a = substring 0 (String.length a) p → ∃ s, p = a ++ s.
Proof.
  revert p. induction a as [|c a IH]; intros p Ha.
  - by exists p.
  - destruct p as [|c' p]; [discriminate|]. simpl in Ha.
    injection Ha as -> Ha. destruct (IH p Ha) as [s ->]. by exists s.
Qed.

(** A record of the prefix table matches a looked-up path exactly when the
    record's path is not empty and the looked-up path starts with it. *)
Theorem prefixMatch_iff_starts_with (p : string) (r : route) :
  prefixMatch p r = true ↔ path r ≠ "" ∧ ∃ s, p = path r ++ s.
Proof.
  rewrite prefixMatch_spec. unfold prefixMatches. split.
  - intros (_ & Hpos & Hsub). split.
    + intros Hempty. rewrite Hempty in Hpos. simpl in Hpos. lia.
    + by apply substring_prefix_split.
  - intros [Hne [s ->]]. split; [|split].
    + rewrite length_string_append. lia.
    + destruct (path r); [done | simpl; lia].
    + by rewrite substring_prefix_append.
Qed.

(** ** Exact routes *)

Section ExactRoutes.
Context `{sorter : SliceSorter}.

(** Registering an exact route and looking its path up gives the registered
    destination with a nil error; the lookup is a hit that changes no table:
    nothing is cached and the ledger does not grow. *)
Theorem exact_route_round_trip (st : state) (p d : string) :
  RouteLookup (snd (AddRoute st p "exact" d)) p
  = ((d, None), snd (AddRoute st p "exact" d)).
Proof.
  rewrite AddRoute_exact. simpl.
  by rewrite (RouteLookup_hit _ p (mkRoute p "exact" d false))
    by apply lookup_insert_eq.
Qed.

(** Registering the same exact path twice leaves the state that the second
    registration alone gives: the latest destination replaces the earlier one
    and no second entry appears. *)
Theorem exact_route_last_registration_wins (st : state) (p d1 d2 : string) :
  snd (AddRoute (snd (AddRoute st p "exact" d1)) p "exact" d2)
  = snd (AddRoute st p "exact" d2).
Proof. rewrite !AddRoute_exact. simpl. by rewrite insert_insert_eq. Qed.

Lemma run_keeps_static (p : string) (r : route) (ops : list op) (st : state) :
  Forall (keepsExactRoute p) ops →
  exactMatchTable st !! p = Some r → dynamicEntry r = false →
  exactMatchTable (run ops st) !! p = Some r.
Proof.
  intros Hops Hp Hr. revert st Hp.
  induction Hops as [|o ops Ho _ IH]; intros st Hp; simpl; [done|].
  apply IH. destruct o as [q mt d|q]; simpl.
  - destruct (decide (mt = "exact")) as [->|Hmt].
    + rewrite AddRoute_exact. simpl. rewrite lookup_insert_ne; [done|].
      by apply Ho.
    + by apply AddRoute_prefix_keeps_static.
  - by apply RouteLookup_exact_present.
Qed.

(** An exact route stays until the same path is registered as an exact route
    again: after any calls that do not do that (lookups of any path,
    registrations of prefix routes with their flushes, exact routes for other
    paths) a lookup of the path still answers the registered destination. *)
Theorem exact_route_persists (st : state) (p d : string) (ops : list op) :
  Forall (keepsExactRoute p) ops →
  exactMatchTable (run ops (snd (AddRoute st p "exact" d))) !! p
  = Some (mkRoute p "exact" d false)
  ∧ fst (RouteLookup (run ops (snd (AddRoute st p "exact" d))) p) = (d, None).
Proof.
  intros Hops.
  assert (exactMatchTable (run ops (snd (AddRoute st p "exact" d))) !! p
          = Some (mkRoute p "exact" d false)) as Hkept.
  { apply run_keeps_static; [done| |done].
    rewrite AddRoute_exact. apply lookup_insert_eq. }
  split; [done|]. by rewrite (RouteLookup_hit _ _ _ Hkept).
Qed.

End ExactRoutes.

(** An exact route persists, for "/api/1": a prefix route for the same path, a
    lookup and a change of that prefix route do not touch the exact route. *)
Lemma exact_route_persists_witness :
  fst (RouteLookup
         (run (sorter := insertionSorter)
            [ OpAddRoute "/api/1" "prefix" "service-5";
              OpRouteLookup "/api/1/2";
              OpAddRoute "/api/1" "prefix" "service-8" ]
            (snd (AddRoute (sorter := insertionSorter) init "/api/1" "exact"
                    "service-1")))
         "/api/1")
  = ("service-1", None).
Proof.
  apply (exact_route_persists (sorter := insertionSorter)).
  repeat constructor; simpl; discriminate.
Defined.

(** ** Lookups *)

Lemma RouteLookup_miss (st : state) (p : string) :
  exactMatchTable st !! p = None →
  RouteLookup st p
  = ((scan (prefixRoutesTable st) p, None),
     createDynamicRoute st p (scan (prefixRoutesTable st) p)).
Proof.
  intros Hp. unfold RouteLookup, scan. rewrite Hp. by destruct (List.find _ _).
Qed.

(** A lookup repeated at once is a hit: it returns what the first lookup
    returned and leaves the state the first lookup left, so the ledger gets
    at most one record per lookup that missed. *)
Theorem RouteLookup_twice (st : state) (p : string) :
  RouteLookup (snd (RouteLookup st p)) p
  = (fst (RouteLookup st p), snd (RouteLookup st p)).
Proof.
  destruct (RouteLookup_cached st p) as (r & Hr & Hd).
  rewrite (RouteLookup_hit _ p r Hr). f_equal.
  pose proof (RouteLookup_error_nil st p) as Herr.
  destruct (fst (RouteLookup st p)) as [dst err]. simpl in *. congruence.
Qed.

(** ** Invariants of the cache *)

Lemma scan_cases (tbl : list route) (q : string) :
  scan tbl q = "default-service"
  ∨ ∃ r, r ∈ tbl ∧ prefixMatches q r ∧ destination r = scan tbl q.
Proof.
  unfold scan. destruct (List.find _ _) as [r|] eqn:Hfind; [|by left].
  right. exists r.
  apply find_some in Hfind as [Hr%list_elem_of_In Hm%prefixMatch_spec]. done.
Qed.

(** No record matches the empty path. *)
Lemma prefixMatches_empty (r : route) : ¬ prefixMatches "" r.
Proof. intros (Hle & Hpos & _). simpl in Hle. lia. Qed.

Lemma scan_empty (tbl : list route) : scan tbl "" = "default-service".
Proof.
  destruct (scan_cases tbl "") as [|(r & _ & Hm & _)]; [done|].
  by destruct (prefixMatches_empty r).
Qed.

(** After a flush of a state whose ledger is complete, the only dynamic entry
    that can be left is the one of the empty path. *)
Lemma flush_no_dynamic (st : state) (q : string) (r : route) :
  ledgerComplete st →
  exactMatchTable (flushDynamicRoutes st) !! q = Some r →
  dynamicEntry r = true → q = "".
Proof.
  intros Hledger. rewrite flush_exact_lookup.
  destruct (decide (q = "")) as [|Hne]; [done|].
  destruct (exactMatchTable st !! q) as [r'|] eqn:Hq.
  - unfold isDynamic. rewrite Hq.
    destruct (dynamicEntry r') eqn:Hdyn.
    + rewrite !bool_decide_eq_true_2; [done..|]. by apply (Hledger q r').
    + rewrite andb_false_r. intros [= <-]. congruence.
  - by destruct (_ && _).
Qed.

Lemma flush_lookup_Some (st : state) (q : string) (r : route) :
  exactMatchTable (flushDynamicRoutes st) !! q = Some r →
  exactMatchTable st !! q = Some r.
Proof. rewrite flush_exact_lookup. by destruct (_ && _). Qed.

Section CacheInvariants.
Context `{sorter : SliceSorter}.

Lemma wellFormed_step (st : state) (o : op) :
  wellFormed st → wellFormed (step st o).
Proof.
  intros [Hexact Htable]. destruct o as [p mt d|p]; simpl.
  - destruct (decide (mt = "exact")) as [->|Hmt].
    { rewrite AddRoute_exact. split; [|done]. simpl. intros q r.
      destruct (decide (p = q)) as [->|Hne].
      - rewrite lookup_insert_eq. by intros [= <-].
      - rewrite lookup_insert_ne by done. apply Hexact. }
    destruct (list_find (λ r, path r = p) (prefixRoutesTable st))
      as [[i r0]|] eqn:Hfind.
    + rewrite (AddRoute_modify st p mt d i r0 Hmt Hfind). split.
      * intros q r Hq%flush_lookup_Some. by apply Hexact.
      * simpl. intros r Hr. apply list_elem_of_lookup in Hr as [j Hj].
        rewrite list_lookup_alter in Hj. destruct (decide (i = j)) as [->|].
        -- destruct (prefixRoutesTable st !! j) as [r1|] eqn:Hr1; [|done].
           injection Hj as <-. simpl. apply Htable.
           by apply list_elem_of_lookup_2 in Hr1.
        -- apply Htable. by apply list_elem_of_lookup_2 in Hj.
    + rewrite (AddRoute_insert st p mt d Hmt Hfind). split; [done|]. simpl.
      intros r. rewrite sort_Slice_perm, elem_of_app, list_elem_of_singleton.
      intros [Hr| ->]; [by apply Htable | done].
  - split; [|by rewrite RouteLookup_prefixRoutesTable].
    destruct (exactMatchTable st !! p) as [rte|] eqn:Hp.
    + by rewrite (RouteLookup_hit st p rte Hp).
    + rewrite (RouteLookup_miss st p Hp). simpl. intros q r.
      destruct (decide (p = q)) as [->|Hne].
      * rewrite lookup_insert_eq. by intros [= <-].
      * rewrite lookup_insert_ne by done. apply Hexact.
Qed.

Lemma ledgerComplete_step (st : state) (o : op) :
  ledgerComplete st → ledgerComplete (step st o).
Proof.
  intros Hledger. destruct o as [p mt d|p]; simpl.
  - destruct (decide (mt = "exact")) as [->|Hmt].
    { rewrite AddRoute_exact. intros q r. simpl.
      destruct (decide (p = q)) as [->|Hne].
      - rewrite lookup_insert_eq. by intros [= <-].
      - rewrite lookup_insert_ne by done. apply Hledger. }
    destruct (list_find (λ r, path r = p) (prefixRoutesTable st))
      as [[i r0]|] eqn:Hfind.
    + rewrite (AddRoute_modify st p mt d i r0 Hmt Hfind).
      intros q r Hq Hdyn Hne. destruct Hne.
      by apply (flush_no_dynamic _ q r) in Hq.
    + by rewrite (AddRoute_insert st p mt d Hmt Hfind).
  - destruct (exactMatchTable st !! p) as [rte|] eqn:Hp.
    + by rewrite (RouteLookup_hit st p rte Hp).
    + rewrite (RouteLookup_miss st p Hp). intros q r. simpl.
      destruct (decide (p = q)) as [->|Hne].
      * intros _ _ _. apply elem_of_app. right. by left.
      * rewrite lookup_insert_ne by done. intros Hq Hdyn Hq'.
        apply elem_of_app. left. by apply (Hledger q r).
Qed.

Lemma cacheGrounded_step (st : state) (o : op) :
  ledgerComplete st → cacheGrounded st → cacheGrounded (step st o).
Proof.
  intros Hledger Hgrounded. destruct o as [p mt d|p]; simpl.
  - destruct (decide (mt = "exact")) as [->|Hmt].
    { rewrite AddRoute_exact. intros q r. simpl.
      destruct (decide (p = q)) as [->|Hne].
      - rewrite lookup_insert_eq. by intros [= <-].
      - rewrite lookup_insert_ne by done. apply Hgrounded. }
    destruct (list_find (λ r, path r = p) (prefixRoutesTable st))
      as [[i r0]|] eqn:Hfind.
    + rewrite (AddRoute_modify st p mt d i r0 Hmt Hfind).
      intros q r Hq Hdyn. left.
      pose proof (flush_no_dynamic _ q r Hledger Hq Hdyn) as ->.
      apply flush_lookup_Some in Hq. simpl in Hq.
      destruct (Hgrounded "" r Hq Hdyn) as [|(r' & _ & Hm & _)]; [done|].
      by destruct (prefixMatches_empty r').
    + rewrite (AddRoute_insert st p mt d Hmt Hfind).
      intros q r Hq Hdyn. simpl in *.
      destruct (Hgrounded q r Hq Hdyn) as [|(r' & Hr' & Hm & Hd)]; [by left|].
      right. exists r'. split; [|done].
      rewrite sort_Slice_perm. apply elem_of_app. by left.
  - destruct (exactMatchTable st !! p) as [rte|] eqn:Hp.
    + by rewrite (RouteLookup_hit st p rte Hp).
    + rewrite (RouteLookup_miss st p Hp). intros q r. simpl.
      destruct (decide (p = q)) as [->|Hne].
      * rewrite lookup_insert_eq. intros [= <-] _. simpl.
        apply scan_cases.
      * rewrite lookup_insert_ne by done. apply Hgrounded.
Qed.

Lemma invariants_init :
  wellFormed init ∧ ledgerComplete init ∧ cacheGrounded init.
Proof.
  split; [split|split]; try done.
  intros r Hr%elem_of_replicate_inv. by subst r.
Qed.

Lemma invariants_run (ops : list op) (st : state) :
  wellFormed st ∧ ledgerComplete st ∧ cacheGrounded st →
  wellFormed (run ops st) ∧ ledgerComplete (run ops st)
  ∧ cacheGrounded (run ops st).
Proof.
  revert st. induction ops as [|o ops IH]; intros st Hst; simpl; [done|].
  destruct Hst as (Hwf & Hledger & Hgrounded). apply IH.
  split; [by apply wellFormed_step|].
  split; [by apply ledgerComplete_step | by apply cacheGrounded_step].
Qed.

End CacheInvariants.

Section ReachableCache.
Context `{sorter : SliceSorter}.

(** In every state the program reaches, each entry of the exact-match table
    is stored under its own path with match type "exact", and no record of
    the prefix table is dynamic or carries the match type "exact": dynamic
    records live in the exact-match table only. *)
Theorem tables_well_formed (ops : list op) :
  (∀ q r, exactMatchTable (run ops init) !! q = Some r →
          path r = q ∧ matchType r = "exact")
  ∧ (∀ r, r ∈ prefixRoutesTable (run ops init) →
          dynamicEntry r = false ∧ matchType r ≠ "exact").
Proof. apply (invariants_run ops init invariants_init). Qed.

(** In every state the program reaches, the path of every dynamic entry is
    recorded in [dynamicEntries], the empty path apart (the flush skips it):
    the ledger misses no cached entry that a flush could delete. *)
Theorem ledger_records_dynamic_entries (ops : list op) (q : string) (r : route) :
  exactMatchTable (run ops init) !! q = Some r →
  dynamicEntry r = true → q ≠ "" →
  q ∈ dynamicEntries (run ops init).
Proof. apply (invariants_run ops init invariants_init). Qed.

(** Changing the destination of a prefix path that the table has, in a state
    the program reaches, empties the cache: the ledger is empty afterwards
    and the only dynamic entry that can remain is the one of the empty path,
    which holds the default service. *)
Theorem modification_empties_the_cache (ops : list op) (p mt d : string)
    (r : route) :
  mt ≠ "exact" → r ∈ prefixRoutesTable (run ops init) → path r = p →
  dynamicEntries (snd (AddRoute (run ops init) p mt d)) = []
  ∧ ∀ q r', exactMatchTable (snd (AddRoute (run ops init) p mt d)) !! q
            = Some r' →
            dynamicEntry r' = true →
            q = "" ∧ destination r' = "default-service".
Proof.
  intros Hmt Hr Hp.
  destruct (invariants_run ops init invariants_init) as (_ & Hledger & Hgrounded).
  destruct (list_find_elem_of (λ r, path r = p) _ r Hr Hp) as [[i r0] Hfind].
  rewrite (AddRoute_modify _ p mt d i r0 Hmt Hfind). split; [done|].
  intros q r' Hq Hdyn. cbn [snd] in Hq.
  pose proof (flush_no_dynamic _ q r' Hledger Hq Hdyn) as ->.
  split; [done|]. apply flush_lookup_Some in Hq. simpl in Hq.
  destruct (Hgrounded "" r' Hq Hdyn) as [|(r'' & _ & Hm & _)]; [done|].
  by destruct (prefixMatches_empty r'').
Qed.

(** A lookup never invents a destination.  In every state the program
    reaches the answer is the default service, or the destination of the
    caller's exact route for the path, or the destination that a record of
    the prefix table matching the path holds now: a destination that a later
    registration replaced is never returned. *)
Theorem RouteLookup_answers_registered (ops : list op) (p : string) :
  let st := run ops init in
  let answer := fst (fst (RouteLookup st p)) in
  answer = "default-service"
  ∨ (∃ r, exactMatchTable st !! p = Some r ∧ dynamicEntry r = false
          ∧ destination r = answer)
  ∨ (∃ r, r ∈ prefixRoutesTable st ∧ prefixMatches p r
          ∧ destination r = answer).
Proof.
  intros st answer. subst answer.
  destruct (invariants_run ops init invariants_init) as (_ & _ & Hgrounded).
  fold st in Hgrounded.
  destruct (exactMatchTable st !! p) as [rte|] eqn:Hp.
  - rewrite (RouteLookup_hit st p rte Hp). simpl.
    destruct (dynamicEntry rte) eqn:Hdyn.
    + destruct (Hgrounded p rte Hp Hdyn) as [|Hrec]; [by left | by right; right].
    + right. left. by exists rte.
  - rewrite (RouteLookup_miss st p Hp). simpl.
    destruct (scan_cases (prefixRoutesTable st) p) as [|Hrec];
      [by left | by right; right].
Qed.

End ReachableCache.

(** A modification empties the cache, after the worked example's routes
    and a lookup of "/api/2/x": changing "/api/2/" removes the cached entry. *)
Lemma modification_empties_the_cache_witness :
  dynamicEntries
    (snd (AddRoute (sorter := insertionSorter)
            (run (sorter := insertionSorter)
               (exampleRoutes ++ [OpRouteLookup "/api/2/x"]) init)
            "/api/2/" "prefix" "service-7")) = [].
Proof.
  apply (modification_empties_the_cache (sorter := insertionSorter)
           (exampleRoutes ++ [OpRouteLookup "/api/2/x"])
           "/api/2/" "prefix" "service-7"
           (mkRoute "/api/2/" "prefix" "service-4" false)).
  - discriminate.
  - vm_compute. do 2 right. left.
  - reflexivity.
Defined.

(** The ledger records the entry that a lookup of "/api/3" caches. *)
Lemma ledger_records_dynamic_entries_witness :
  "/api/3" ∈ dynamicEntries
    (run (sorter := insertionSorter) [OpRouteLookup "/api/3"] init).
Proof.
  apply (ledger_records_dynamic_entries (sorter := insertionSorter)
           [OpRouteLookup "/api/3"] "/api/3"
           (mkRoute "/api/3" "exact" "default-service" true)).
  - vm_compute. reflexivity.
  - reflexivity.
  - discriminate.
Defined.

(** ** When lookups answer what the tables say *)

Lemma RouteLookup_resolve (st : state) (p : string) :
  coherent st → fst (RouteLookup st p) = (resolve st p, None).
Proof.
  intros Hco. unfold resolve.
  destruct (exactMatchTable st !! p) as [rte|] eqn:Hp.
  - rewrite (RouteLookup_hit st p rte Hp). simpl.
    destruct (dynamicEntry rte) eqn:Hdyn; [|done]. by rewrite (Hco p rte).
  - by rewrite (RouteLookup_miss st p Hp).
Qed.

Section Coherence.
Context `{sorter : SliceSorter}.

Lemma coherent_after_modification (st : state) (p mt d : string) (i : nat)
    (r0 : route) :
  ledgerComplete st → cacheGrounded st → mt ≠ "exact" →
  list_find (λ r, path r = p) (prefixRoutesTable st) = Some (i, r0) →
  coherent (snd (AddRoute st p mt d)).
Proof.
  intros Hledger Hgrounded Hmt Hfind.
  rewrite (AddRoute_modify st p mt d i r0 Hmt Hfind).
  intros q r Hq Hdyn. cbn [snd] in *.
  pose proof (flush_no_dynamic _ q r Hledger Hq Hdyn) as ->.
  rewrite scan_empty. apply flush_lookup_Some in Hq. simpl in Hq.
  destruct (Hgrounded "" r Hq Hdyn) as [|(r' & _ & Hm & _)]; [done|].
  by destruct (prefixMatches_empty r').
Qed.

Lemma coherent_step (st : state) (o : op) :
  ledgerComplete st → cacheGrounded st → coherent st →
  addsNoPrefix (path <$> prefixRoutesTable st) o →
  coherent (step st o)
  ∧ path <$> prefixRoutesTable (step st o) = path <$> prefixRoutesTable st.
Proof.
  intros Hledger Hgrounded Hco Ho. destruct o as [p mt d|p]; simpl in *.
  - destruct (decide (mt = "exact")) as [->|Hmt].
    { rewrite AddRoute_exact. split; [|done]. intros q r. simpl.
      destruct (decide (p = q)) as [->|Hne].
      - rewrite lookup_insert_eq. by intros [= <-].
      - rewrite lookup_insert_ne by done. apply Hco. }
    destruct Ho as [|Hp]; [done|].
    apply list_elem_of_fmap in Hp as (r1 & Hpath & Hr1).
    destruct (list_find_elem_of (λ r, path r = p) _ r1 Hr1 (eq_sym Hpath))
      as [[i r0] Hfind].
    split; [by apply (coherent_after_modification st p mt d i r0)|].
    rewrite (AddRoute_modify st p mt d i r0 Hmt Hfind). apply fmap_path_alter.
  - split; [|by rewrite RouteLookup_prefixRoutesTable].
    destruct (exactMatchTable st !! p) as [rte|] eqn:Hp.
    + by rewrite (RouteLookup_hit st p rte Hp).
    + rewrite (RouteLookup_miss st p Hp). intros q r. simpl.
      destruct (decide (p = q)) as [->|Hne].
      * rewrite lookup_insert_eq. by intros [= <-].
      * rewrite lookup_insert_ne by done. apply Hco.
Qed.

Lemma coherent_run (ops : list op) (st : state) :
  wellFormed st ∧ ledgerComplete st ∧ cacheGrounded st → coherent st →
  Forall (addsNoPrefix (path <$> prefixRoutesTable st)) ops →
  coherent (run ops st).
Proof.
  revert st. induction ops as [|o ops IH]; intros st Hinv Hco Hops; [done|].
  apply Forall_cons in Hops as [Ho Hops]. simpl.
  destruct Hinv as (Hwf & Hledger & Hgrounded).
  destruct (coherent_step st o Hledger Hgrounded Hco Ho) as [Hco' Hpaths].
  apply IH; [|done|by rewrite Hpaths].
  split; [by apply wellFormed_step|].
  split; [by apply ledgerComplete_step | by apply cacheGrounded_step].
Qed.

(** Registrations alone create no dynamic entry. *)
Lemma registrations_no_dynamic (regs : list op) (st : state) :
  Forall isRegistration regs →
  (∀ q r, exactMatchTable st !! q = Some r → dynamicEntry r = false) →
  ∀ q r, exactMatchTable (run regs st) !! q = Some r → dynamicEntry r = false.
Proof.
  intros Hregs. revert st.
  induction Hregs as [|o regs Ho _ IH]; intros st Hst; [done|].
  simpl. apply IH. destruct o as [p mt d|p]; [|done]. simpl.
  destruct (decide (mt = "exact")) as [->|Hmt].
  { rewrite AddRoute_exact. intros q r. simpl.
    destruct (decide (p = q)) as [->|Hne].
    - rewrite lookup_insert_eq. by intros [= <-].
    - rewrite lookup_insert_ne by done. apply Hst. }
  destruct (list_find (λ r, path r = p) (prefixRoutesTable st))
    as [[i r0]|] eqn:Hfind.
  - rewrite (AddRoute_modify st p mt d i r0 Hmt Hfind).
    intros q r Hq%flush_lookup_Some. by apply (Hst q r).
  - by rewrite (AddRoute_insert st p mt d Hmt Hfind).
Qed.

(** Invalidation on a change of destination.  Once the destination of a
    prefix path that the table has is changed, every lookup answers what the
    tables say ([resolve]: the caller's exact route, else the prefix scan of
    the table as it is now), and keeps doing so through any further lookups,
    exact registrations and changes of registered prefix paths, as long as no
    new prefix path is added. *)
Theorem lookups_correct_after_modification (ops later : list op)
    (p mt d q : string) (r : route) :
  mt ≠ "exact" → r ∈ prefixRoutesTable (run ops init) → path r = p →
  Forall (addsNoPrefix (path <$> prefixRoutesTable (run ops init))) later →
  fst (RouteLookup (run later (snd (AddRoute (run ops init) p mt d))) q)
  = (resolve (run later (snd (AddRoute (run ops init) p mt d))) q, None).
Proof.
  intros Hmt Hr Hp Hlater. apply RouteLookup_resolve.
  pose proof (invariants_run ops init invariants_init) as Hinv.
  destruct (list_find_elem_of (λ r, path r = p) _ r Hr Hp) as [[i r0] Hfind].
  apply coherent_run.
  - change (snd (AddRoute (run ops init) p mt d))
      with (run [OpAddRoute p mt d] (run ops init)).
    by apply invariants_run.
  - destruct Hinv as (_ & Hledger & Hgrounded).
    by apply (coherent_after_modification _ p mt d i r0).
  - rewrite (AddRoute_modify _ p mt d i r0 Hmt Hfind). cbn [snd].
    simpl. by rewrite fmap_path_alter.
Qed.

(** Registering first, looking up afterwards.  When all prefix routes are
    registered before the first lookup, every lookup answers what the tables
    say, through any further lookups, exact registrations and changes of
    registered prefix paths. *)
Theorem lookups_correct_after_registrations (regs later : list op)
    (q : string) :
  Forall isRegistration regs →
  Forall (addsNoPrefix (path <$> prefixRoutesTable (run regs init))) later →
  fst (RouteLookup (run later (run regs init)) q)
  = (resolve (run later (run regs init)) q, None).
Proof.
  intros Hregs Hlater. apply RouteLookup_resolve. apply coherent_run; [|
    |done].
  - apply invariants_run, invariants_init.
  - intros q' r' Hq' Hdyn.
    assert (dynamicEntry r' = false) as Hstatic
      by (by apply (registrations_no_dynamic regs init Hregs) with q').
    congruence.
Qed.

End Coherence.

(** ** Prefix routes *)

Lemma prefixMatches_path (q : string) (r1 r2 : route) :
  path r1 = path r2 → prefixMatches q r1 → prefixMatches q r2.
Proof. unfold prefixMatches. by intros ->. Qed.

Lemma prefixMatch_path (q : string) (r1 r2 : route) :
  path r1 = path r2 → prefixMatch q r1 = prefixMatch q r2.
Proof. unfold prefixMatch. by intros ->. Qed.

Lemma scan_longestMatch (tbl : list route) (q : string) (r : route) :
  tableInvariant tbl → longestMatch q tbl r → scan tbl q = destination r.
Proof.
  intros Hinv Hr. unfold scan.
  destruct (List.find (prefixMatch q) tbl) as [r'|] eqn:Hfind.
  - f_equal. apply (longestMatch_unique q tbl); [done| |done].
    apply find_longestMatch; [apply Hinv | done].
  - destruct Hr as (Hr & Hm & _).
    by destruct (proj1 (find_prefixMatch_None q tbl) Hfind r).
Qed.

Lemma scan_no_match (tbl : list route) (q : string) :
  (∀ r, r ∈ tbl → ¬ prefixMatches q r) → scan tbl q = "default-service".
Proof. intros Hnone%find_prefixMatch_None. unfold scan. by rewrite Hnone. Qed.

Lemma find_alter_nonmatching (q d : string) (tbl : list route) (i : nat)
    (r0 : route) :
  tbl !! i = Some r0 → prefixMatch q r0 = false →
  List.find (prefixMatch q) (alter (setDestination d) i tbl)
  = List.find (prefixMatch q) tbl.
Proof.
  revert i. induction tbl as [|c tbl IH]; intros [|i] Hi Hm; try done.
  - injection Hi as ->. simpl.
    rewrite (prefixMatch_path q (setDestination d r0) r0) by done.
    by rewrite Hm.
  - simpl. destruct (prefixMatch q c); [done|]. by apply IH.
Qed.

Section PrefixRoutes.
Context `{sorter : SliceSorter}.

(** The records of the table after a registration that is not an exact one:
    the records it had, with one record for the path carrying the new
    destination. *)
Lemma AddRoute_prefix_members (st : state) (p mt d : string) (r : route) :
  mt ≠ "exact" →
  r ∈ prefixRoutesTable (snd (AddRoute st p mt d)) →
  (path r = p ∧ destination r = d) ∨ r ∈ prefixRoutesTable st.
Proof.
  intros Hmt.
  destruct (list_find (λ r, path r = p) (prefixRoutesTable st))
    as [[i r0]|] eqn:Hfind.
  - rewrite (AddRoute_modify st p mt d i r0 Hmt Hfind). simpl.
    apply list_find_Some in Hfind as (Hi & Hp & _).
    intros [j Hj]%list_elem_of_lookup. rewrite list_lookup_alter in Hj.
    destruct (decide (i = j)) as [<-|Hne].
    + rewrite Hi in Hj. injection Hj as <-. by left.
    + right. by apply list_elem_of_lookup_2 in Hj.
  - rewrite (AddRoute_insert st p mt d Hmt Hfind). simpl.
    rewrite sort_Slice_perm, elem_of_app, list_elem_of_singleton.
    intros [Hr| ->]; [by right | by left].
Qed.

Lemma AddRoute_prefix_keeps_others (st : state) (p mt d : string) (r : route) :
  mt ≠ "exact" → r ∈ prefixRoutesTable st → path r ≠ p →
  r ∈ prefixRoutesTable (snd (AddRoute st p mt d)).
Proof.
  intros Hmt Hr Hp.
  destruct (list_find (λ r, path r = p) (prefixRoutesTable st))
    as [[i r0]|] eqn:Hfind.
  - rewrite (AddRoute_modify st p mt d i r0 Hmt Hfind). simpl.
    apply list_find_Some in Hfind as (Hi & Hp0 & _).
    apply list_elem_of_lookup in Hr as [j Hj]. apply list_elem_of_lookup.
    exists j. rewrite list_lookup_alter_ne; [done|].
    intros ->. rewrite Hi in Hj. congruence.
  - rewrite (AddRoute_insert st p mt d Hmt Hfind). simpl.
    rewrite sort_Slice_perm. apply elem_of_app. by left.
Qed.

Lemma AddRoute_prefix_paths (st : state) (p mt d q : string) :
  mt ≠ "exact" →
  q ∈ path <$> prefixRoutesTable (snd (AddRoute st p mt d))
  ↔ q = p ∨ q ∈ path <$> prefixRoutesTable st.
Proof.
  intros Hmt. rewrite !list_elem_of_fmap. split.
  - intros (r & -> & Hr).
    destruct (AddRoute_prefix_members st p mt d r Hmt Hr) as [[Hp _]|Hold];
      [by left | right; by exists r].
  - intros [->|(r & -> & Hr)].
    + destruct (AddRoute_prefix_registered st p mt d Hmt) as (r & Hr & Hp & _).
      by exists r.
    + destruct (decide (path r = p)) as [Hp|Hp].
      * destruct (AddRoute_prefix_registered st p mt d Hmt)
          as (r' & Hr' & Hp' & _).
        exists r'. split; [congruence | done].
      * exists r. split; [done|]. by apply AddRoute_prefix_keeps_others.
Qed.

Lemma AddRoute_prefix_exact_lookup (st : state) (p mt d q : string) :
  mt ≠ "exact" →
  exactMatchTable (snd (AddRoute st p mt d)) !! q = exactMatchTable st !! q
  ∨ (exactMatchTable (snd (AddRoute st p mt d)) !! q = None
     ∧ ∃ r, exactMatchTable st !! q = Some r ∧ dynamicEntry r = true).
Proof.
  intros Hmt.
  destruct (list_find (λ r, path r = p) (prefixRoutesTable st))
    as [[i r0]|] eqn:Hfind.
  - rewrite (AddRoute_modify st p mt d i r0 Hmt Hfind). cbn [snd].
    rewrite flush_exact_lookup. simpl. unfold isDynamic.
    destruct (exactMatchTable st !! q) as [r|]; [|left; by destruct (_ && _)].
    destruct (dynamicEntry r) eqn:Hdyn.
    + destruct (_ && _); [right | left]; [|done]. split; [done|]. by exists r.
    + left. by rewrite andb_false_r.
  - rewrite (AddRoute_insert st p mt d Hmt Hfind). by left.
Qed.

Lemma resolve_AddRoute_prefix (st : state) (p mt d q : string) :
  mt ≠ "exact" →
  scan (prefixRoutesTable (snd (AddRoute st p mt d))) q
  = scan (prefixRoutesTable st) q →
  resolve (snd (AddRoute st p mt d)) q = resolve st q.
Proof.
  intros Hmt Hscan. unfold resolve. rewrite Hscan.
  destruct (AddRoute_prefix_exact_lookup st p mt d q Hmt)
    as [->|[-> (r & -> & ->)]]; done.
Qed.

Lemma scan_AddRoute_nonmatching (st : state) (p mt d q : string) :
  tableInvariant (prefixRoutesTable st) → mt ≠ "exact" →
  ¬ prefixMatches q (mkRoute p mt d false) →
  scan (prefixRoutesTable (snd (AddRoute st p mt d))) q
  = scan (prefixRoutesTable st) q.
Proof.
  intros Hinv Hmt Hnomatch.
  pose proof (tableInvariant_AddRoute st p mt d Hinv) as Hinv'.
  destruct (list_find (λ r, path r = p) (prefixRoutesTable st))
    as [[i r0]|] eqn:Hfind.
  - rewrite (AddRoute_modify st p mt d i r0 Hmt Hfind). simpl. unfold scan.
    apply list_find_Some in Hfind as (Hi & Hp & _).
    rewrite (find_alter_nonmatching q d _ i r0 Hi); [done|].
    apply prefixMatch_false. intros Hm. apply Hnomatch.
    by apply (prefixMatches_path q r0).
  - assert (∀ r, r ∈ prefixRoutesTable (snd (AddRoute st p mt d)) →
                 prefixMatches q r → r ∈ prefixRoutesTable st) as Hold.
    { intros r Hr Hm.
      destruct (AddRoute_prefix_members st p mt d r Hmt Hr) as [[Hp _]|]; [|done].
      destruct Hnomatch. by apply (prefixMatches_path q r). }
    assert (∀ r, r ∈ prefixRoutesTable st → prefixMatches q r →
                 r ∈ prefixRoutesTable (snd (AddRoute st p mt d))) as Hnew.
    { intros r Hr Hm. apply AddRoute_prefix_keeps_others; [done..|].
      intros Hp. destruct Hnomatch. by apply (prefixMatches_path q r). }
    destruct (List.find (prefixMatch q) (prefixRoutesTable st)) as [r|] eqn:Hscan.
    + pose proof (find_longestMatch q _ r (proj1 Hinv) Hscan) as (Hr & Hm & Hmax).
      unfold scan at 2. rewrite Hscan. apply scan_longestMatch; [done|].
      split; [by apply Hnew|]. split; [done|].
      intros r' Hr' Hm'. apply Hmax; [by apply Hold | done].
    + unfold scan at 2. rewrite Hscan. apply scan_no_match.
      intros r Hr Hm.
      by destruct (proj1 (find_prefixMatch_None q _) Hscan r (Hold r Hr Hm)).
Qed.

(** Registering a prefix route, new or not, leaves what the tables say for
    every path that the registered prefix does not match. *)
Theorem prefix_registration_is_local (ops : list op) (p mt d q : string) :
  mt ≠ "exact" → ¬ prefixMatches q (mkRoute p mt d false) →
  resolve (snd (AddRoute (run ops init) p mt d)) q = resolve (run ops init) q.
Proof.
  intros Hmt Hnomatch. apply resolve_AddRoute_prefix; [done|].
  apply scan_AddRoute_nonmatching; [|done..].
  apply tableInvariant_run, tableInvariant_init.
Qed.

(** Registering a prefix route and looking up a path that it matches.  In a
    state the program reaches, when no record of the table that matches the
    path [q] has a longer path than the registered prefix, the prefix scan
    of [q] answers the registered destination afterwards, and so does a
    lookup of [q] that finds no entry in the exact-match table. *)
Theorem prefix_route_round_trip (ops : list op) (p mt d q : string) :
  mt ≠ "exact" → prefixMatches q (mkRoute p mt d false) →
  (∀ r, r ∈ prefixRoutesTable (run ops init) → prefixMatches q r →
        (String.length (path r) ≤ String.length p)%nat) →
  scan (prefixRoutesTable (snd (AddRoute (run ops init) p mt d))) q = d
  ∧ (exactMatchTable (snd (AddRoute (run ops init) p mt d)) !! q = None →
     fst (RouteLookup (snd (AddRoute (run ops init) p mt d)) q) = (d, None)).
Proof.
  intros Hmt Hmatch Hlongest.
  assert (tableInvariant
            (prefixRoutesTable (snd (AddRoute (run ops init) p mt d)))) as Hinv
    by (apply tableInvariant_AddRoute, tableInvariant_run, tableInvariant_init).
  destruct (AddRoute_prefix_registered (run ops init) p mt d Hmt)
    as (r0 & Hr0 & Hp0 & Hd0).
  assert (scan (prefixRoutesTable (snd (AddRoute (run ops init) p mt d))) q = d)
    as Hscan.
  { transitivity (destination r0); [|done].
    apply scan_longestMatch; [done|].
    split; [done|]. split; [by apply (prefixMatches_path q (mkRoute p mt d false))|].
    intros r Hr Hm. rewrite Hp0.
    destruct (AddRoute_prefix_members _ p mt d r Hmt Hr) as [[-> _]|Hold];
      [done | by apply Hlongest]. }
  split; [done|]. intros Hmiss. by rewrite (RouteLookup_miss _ q Hmiss), Hscan.
Qed.

(** A prefix route for the empty path is no catch-all: registering it leaves
    what the tables say for every path as it was.  It only flushes the
    cache, because the table always has a record with the empty path. *)
Theorem empty_prefix_route_is_inert (ops : list op) (d q : string) :
  resolve (snd (AddRoute (run ops init) "" "prefix" d)) q
  = resolve (run ops init) q
  ∧ dynamicEntries (snd (AddRoute (run ops init) "" "prefix" d)) = [].
Proof.
  assert ("prefix" ≠ "exact") as Hmt by done. split.
  - apply resolve_AddRoute_prefix; [done|].
    apply scan_AddRoute_nonmatching; [|done|].
    + apply tableInvariant_run, tableInvariant_init.
    + intros (_ & Hpos & _). simpl in Hpos. lia.
  - assert ("" ∈ path <$> prefixRoutesTable (run ops init)) as Hin.
    { induction ops as [|o ops IH] using rev_ind.
      - simpl. left.
      - unfold run in *. rewrite fold_left_app. simpl.
        destruct o as [p' mt' d'|p']; simpl.
        + destruct (decide (mt' = "exact")) as [->|Hmt'].
          * by rewrite AddRoute_exact.
          * apply AddRoute_prefix_paths; [done|]. by right.
        + by rewrite RouteLookup_prefixRoutesTable. }
    apply list_elem_of_fmap in Hin as (r & Hp & Hr).
    by apply (AddRoute_modify_flushes (run ops init) "" "prefix" d r).
Qed.

End PrefixRoutes.

(** Locality of a prefix registration: registering "/api/2/" does not change
    what the tables say for "/api/1/2". *)
Lemma prefix_registration_is_local_witness :
  resolve (snd (AddRoute (sorter := insertionSorter)
                  (run (sorter := insertionSorter) exampleRoutes init)
                  "/api/2/" "prefix" "service-7")) "/api/1/2"
  = resolve (run (sorter := insertionSorter) exampleRoutes init) "/api/1/2".
Proof.
  apply (prefix_registration_is_local (sorter := insertionSorter)).
  - discriminate.
  - apply prefixMatch_false. reflexivity.
Defined.

(** Round trip of a prefix route: after the worked example's routes, the
    new prefix "/api/2/1/2" is the longest one that matches "/api/2/1/2/3". *)
Lemma prefix_route_round_trip_witness :
  scan (prefixRoutesTable
          (snd (AddRoute (sorter := insertionSorter)
                  (run (sorter := insertionSorter) exampleRoutes init)
                  "/api/2/1/2" "prefix" "service-8"))) "/api/2/1/2/3"
  = "service-8".
Proof.
  apply (prefix_route_round_trip (sorter := insertionSorter) exampleRoutes
           "/api/2/1/2" "prefix" "service-8" "/api/2/1/2/3").
  - discriminate.
  - apply prefixMatch_spec. reflexivity.
  - intros r Hr Hm. apply prefixMatch_spec in Hm.
    assert (prefixRoutesTable (run (sorter := insertionSorter) exampleRoutes init)
            = ([ mkRoute "/api/2/1/1" "prefix" "service-6" false;
                 mkRoute "/api/2/1" "prefix" "service-3" false;
                 mkRoute "/api/2/" "prefix" "service-4" false;
                 mkRoute "/api/1" "prefix" "service-5" false ]
               ++ replicate 10 zeroRoute)%list) as Htbl by (vm_compute; reflexivity).
    rewrite Htbl in Hr. apply elem_of_app in Hr as [Hr|Hr].
    + repeat (apply elem_of_cons in Hr as [->|Hr]);
        try (by apply not_elem_of_nil in Hr);
        first [discriminate Hm | simpl; lia].
    + apply elem_of_replicate_inv in Hr as ->. discriminate Hm.
Defined.

(** ** What the prefix table holds *)

Lemma run_snoc `{sorter : SliceSorter} (ops : list op) (o : op) (st : state) :
  run (ops ++ [o]) st = step (run ops st) o.
Proof. unfold run. by rewrite fold_left_app. Qed.

Section TableContent.
Context `{sorter : SliceSorter}.

Lemma table_paths_run (ops : list op) (q : string) :
  q ∈ path <$> prefixRoutesTable (run ops init)
  ↔ q = "" ∨ q ∈ prefixPathsOf ops.
Proof.
  induction ops as [|o ops IH] using rev_ind.
  - change (run [] init) with init. rewrite list_elem_of_fmap. split.
    + intros (r & -> & Hr). left.
      by apply (elem_of_replicate_inv r 10 zeroRoute) in Hr as ->.
    + intros [->|Hq]; [|by apply not_elem_of_nil in Hq].
      exists zeroRoute. split; [done|]. by apply (elem_of_replicate 10).
  - rewrite run_snoc. unfold prefixPathsOf. rewrite omap_app.
    fold (prefixPathsOf ops). rewrite elem_of_app.
    destruct o as [p mt d|p]; simpl.
    + destruct (String.eqb mt "exact") eqn:Hmt.
      * apply String.eqb_eq in Hmt as ->. rewrite AddRoute_exact. simpl.
        rewrite IH. rewrite elem_of_nil. tauto.
      * apply String.eqb_neq in Hmt.
        rewrite (AddRoute_prefix_paths _ p mt d q Hmt), IH.
        rewrite list_elem_of_singleton. tauto.
    + rewrite RouteLookup_prefixRoutesTable, IH, elem_of_nil. tauto.
Qed.

(** The prefix table holds the paths that were registered as prefix routes,
    and the empty path of the records that [init] made; nothing else, and no
    registered path is ever dropped. *)
Theorem prefix_table_paths (ops : list op) (q : string) :
  q ∈ path <$> prefixRoutesTable (run ops init)
  ↔ q = "" ∨ q ∈ prefixPathsOf ops.
Proof. apply table_paths_run. Qed.

(** A record of the prefix table with a non-empty path carries the
    destination of the last registration of that path as a prefix route. *)
Theorem prefix_table_destinations (ops : list op) (r : route) :
  r ∈ prefixRoutesTable (run ops init) → path r ≠ "" →
  lastPrefixDestination ops (path r) = Some (destination r).
Proof.
  revert r. induction ops as [|o ops IH] using rev_ind; intros r.
  - intros Hr%elem_of_replicate_inv Hne. by subst r.
  - rewrite run_snoc. unfold lastPrefixDestination. rewrite fold_left_app.
    fold (lastPrefixDestination ops (path r)).
    destruct o as [p mt d|p]; simpl.
    + destruct (String.eqb mt "exact") eqn:Hmt.
      * apply String.eqb_eq in Hmt as ->. rewrite AddRoute_exact. apply IH.
      * apply String.eqb_neq in Hmt. intros Hr Hne.
        destruct (String.eqb p (path r)) eqn:Hp.
        -- apply String.eqb_eq in Hp. f_equal.
           pose proof (tableInvariant_AddRoute (run ops init) p mt d
                         (tableInvariant_run ops init tableInvariant_init))
             as [_ Hone].
           destruct (AddRoute_prefix_registered (run ops init) p mt d Hmt)
             as (r0 & Hr0 & Hp0 & Hd0).
           specialize (Hone (path r) Hne).
           assert (r ∈ recordsFor (path r)
                     (prefixRoutesTable (snd (AddRoute (run ops init) p mt d))))
             as Hin by (by apply list_elem_of_filter).
           assert (r0 ∈ recordsFor (path r)
                     (prefixRoutesTable (snd (AddRoute (run ops init) p mt d))))
             as Hin0 by (apply list_elem_of_filter; split; [congruence|done]).
           destruct (recordsFor _ _) as [|a [|b l]]; simpl in Hone.
           ++ by apply not_elem_of_nil in Hin.
           ++ apply list_elem_of_singleton in Hin, Hin0. congruence.
           ++ lia.
        -- apply String.eqb_neq in Hp. apply IH; [|done].
           destruct (AddRoute_prefix_members _ p mt d r Hmt Hr) as [[Hp' _]|];
             [congruence | done].
    + rewrite RouteLookup_prefixRoutesTable. apply IH.
Qed.

(** The ten records with the empty path that [init] makes stay: in every
    state the program reaches the prefix table holds exactly ten of them,
    however often the empty path is registered. *)
Theorem prefix_table_keeps_ten_empty_records (ops : list op) :
  length (recordsFor "" (prefixRoutesTable (run ops init))) = 10.
Proof.
  induction ops as [|o ops IH] using rev_ind; [done|].
  rewrite run_snoc. destruct o as [p mt d|p]; simpl.
  - destruct (decide (mt = "exact")) as [->|Hmt].
    { by rewrite AddRoute_exact. }
    destruct (list_find (λ r, path r = p) (prefixRoutesTable (run ops init)))
      as [[i r0]|] eqn:Hfind.
    + rewrite (AddRoute_modify _ p mt d i r0 Hmt Hfind). simpl.
      by rewrite recordsFor_alter.
    + rewrite (AddRoute_insert _ p mt d Hmt Hfind). simpl.
      unfold recordsFor in *. rewrite sort_Slice_perm, filter_app, length_app.
      rewrite IH, filter_cons, filter_nil. simpl.
      destruct (decide (p = "")) as [->|Hp]; [|done].
      apply recordsFor_absent in Hfind. unfold recordsFor in Hfind.
      rewrite Hfind in IH. discriminate.
  - by rewrite RouteLookup_prefixRoutesTable.
Qed.

End TableContent.

(** The destination in the table for "/api/2/", registered twice. *)
Lemma prefix_table_destinations_witness :
  lastPrefixDestination
    (exampleRoutes ++ [OpAddRoute "/api/2/" "prefix" "service-7"]) "/api/2/"
  = Some "service-7".
Proof.
  apply (prefix_table_destinations (sorter := insertionSorter)
           (exampleRoutes ++ [OpAddRoute "/api/2/" "prefix" "service-7"])
           (mkRoute "/api/2/" "prefix" "service-7" false)).
  - vm_compute. do 2 right. left.
  - discriminate.
Defined.

(** Lookups after a modification: after the worked example's routes and a
    lookup, "/api/2/" is changed; a lookup and an exact registration
    later the lookup of "/api/2/x" answers what the tables say. *)
Lemma lookups_correct_after_modification_witness :
  fst (RouteLookup
         (run (sorter := insertionSorter)
            [OpRouteLookup "/api/2/x"; OpAddRoute "/api/9" "exact" "service-9"]
            (snd (AddRoute (sorter := insertionSorter)
                    (run (sorter := insertionSorter)
                       (exampleRoutes ++ [OpRouteLookup "/api/2/x"]) init)
                    "/api/2/" "prefix" "service-7")))
         "/api/2/x")
  = (resolve
       (run (sorter := insertionSorter)
          [OpRouteLookup "/api/2/x"; OpAddRoute "/api/9" "exact" "service-9"]
          (snd (AddRoute (sorter := insertionSorter)
                  (run (sorter := insertionSorter)
                     (exampleRoutes ++ [OpRouteLookup "/api/2/x"]) init)
                  "/api/2/" "prefix" "service-7")))
       "/api/2/x", None).
Proof.
  apply (lookups_correct_after_modification (sorter := insertionSorter)
           (exampleRoutes ++ [OpRouteLookup "/api/2/x"])
           [OpRouteLookup "/api/2/x"; OpAddRoute "/api/9" "exact" "service-9"]
           "/api/2/" "prefix" "service-7" "/api/2/x"
           (mkRoute "/api/2/" "prefix" "service-4" false)).
  - discriminate.
  - vm_compute. do 2 right. left.
  - reflexivity.
  - constructor; [exact I|]. constructor; [by left | constructor].
Defined.

(** Lookups after registrations: the worked example's routes, then a
    lookup and the change of "/api/2/". *)
Lemma lookups_correct_after_registrations_witness :
  fst (RouteLookup
         (run (sorter := insertionSorter)
            [OpRouteLookup "/api/2/"; OpAddRoute "/api/2/" "prefix" "service-7"]
            (run (sorter := insertionSorter) exampleRoutes init))
         "/api/2/")
  = (resolve
       (run (sorter := insertionSorter)
          [OpRouteLookup "/api/2/"; OpAddRoute "/api/2/" "prefix" "service-7"]
          (run (sorter := insertionSorter) exampleRoutes init))
       "/api/2/", None).
Proof.
  apply (lookups_correct_after_registrations (sorter := insertionSorter)
           exampleRoutes
           [OpRouteLookup "/api/2/"; OpAddRoute "/api/2/" "prefix" "service-7"]).
  - repeat constructor.
  - constructor; [exact I|]. constructor; [|constructor].
    right. vm_compute. do 2 right. left.
Defined.

(** ** Where a new prefix route can leave a stale answer *)

Section StaleAnswers.
Context `{sorter : SliceSorter}.

Lemma lookup_after_prefix_registration (st : state) (p mt d q : string) :
  ledgerComplete st → cacheGrounded st → coherent st →
  tableInvariant (prefixRoutesTable st) →
  mt ≠ "exact" → ¬ prefixMatches q (mkRoute p mt d false) →
  fst (RouteLookup (snd (AddRoute st p mt d)) q)
  = (resolve (snd (AddRoute st p mt d)) q, None).
Proof.
  intros Hledger Hgrounded Hco Hinv Hmt Hnomatch.
  destruct (list_find (λ r, path r = p) (prefixRoutesTable st))
    as [[i r0]|] eqn:Hfind.
  - apply RouteLookup_resolve.
    by apply (coherent_after_modification st p mt d i r0).
  - destruct (AddRoute_insert_no_flush st p mt d Hmt Hfind) as [Hexact _].
    unfold resolve.
    destruct (exactMatchTable (snd (AddRoute st p mt d)) !! q) as [r|] eqn:Hq.
    + rewrite (RouteLookup_hit _ q r Hq). simpl.
      destruct (dynamicEntry r) eqn:Hdyn; [|done].
      rewrite Hexact in Hq. rewrite scan_AddRoute_nonmatching by done.
      by rewrite (Hco q r).
    + by rewrite (RouteLookup_miss _ q Hq).
Qed.

(** A prefix route added after lookups can leave stale answers only for the
    paths it matches.  When the routes were registered before the first
    lookup and a prefix route is then registered, new or not, the lookup of
    every path that the registered prefix does not match still answers what
    the tables say. *)
Theorem new_prefix_route_affects_only_matching_paths (regs later : list op)
    (p mt d q : string) :
  Forall isRegistration regs →
  Forall (addsNoPrefix (path <$> prefixRoutesTable (run regs init))) later →
  mt ≠ "exact" → ¬ prefixMatches q (mkRoute p mt d false) →
  fst (RouteLookup (snd (AddRoute (run later (run regs init)) p mt d)) q)
  = (resolve (snd (AddRoute (run later (run regs init)) p mt d)) q, None).
Proof.
  intros Hregs Hlater Hmt Hnomatch.
  pose proof (invariants_run later _
                (invariants_run regs init invariants_init))
    as (_ & Hledger & Hgrounded).
  apply lookup_after_prefix_registration; [done..| | |done|done].
  - apply coherent_run; [apply invariants_run, invariants_init| |done].
    intros q' r' Hq' Hdyn.
    assert (dynamicEntry r' = false) as Hstatic
      by (by apply (registrations_no_dynamic regs init Hregs) with q').
    congruence.
  - apply tableInvariant_run, tableInvariant_run, tableInvariant_init.
Qed.

End StaleAnswers.

(** A new prefix route and the paths it does not match: after the worked
    example's routes and two lookups the new prefix "/api/3" is registered;
    "/api/2/1/2", which it does not match, is still answered from the
    tables. *)
Lemma new_prefix_route_affects_only_matching_paths_witness :
  fst (RouteLookup
         (snd (AddRoute (sorter := insertionSorter)
                 (run (sorter := insertionSorter)
                    [OpRouteLookup "/api/3/1"; OpRouteLookup "/api/2/1/2"]
                    (run (sorter := insertionSorter) exampleRoutes init))
                 "/api/3" "prefix" "service-9"))
         "/api/2/1/2")
  = (resolve
       (snd (AddRoute (sorter := insertionSorter)
               (run (sorter := insertionSorter)
                  [OpRouteLookup "/api/3/1"; OpRouteLookup "/api/2/1/2"]
                  (run (sorter := insertionSorter) exampleRoutes init))
               "/api/3" "prefix" "service-9"))
       "/api/2/1/2", None).
Proof.
  apply (new_prefix_route_affects_only_matching_paths
           (sorter := insertionSorter) exampleRoutes
           [OpRouteLookup "/api/3/1"; OpRouteLookup "/api/2/1/2"]
           "/api/3" "prefix" "service-9" "/api/2/1/2").
  - repeat constructor.
  - repeat constructor.
  - discriminate.
  - apply prefixMatch_false. reflexivity.
Defined.

(** ** The size of the prefix table *)

Lemma length_remove_dups_snoc (l : list string) (x : string) :
  length (remove_dups (l ++ [x]))
  = if decide (x ∈ l) then length (remove_dups l)
    else S (length (remove_dups l)).
Proof.
  destruct (decide (x ∈ l)) as [Hx|Hx].
  - apply Permutation_length, NoDup_Permutation; [apply NoDup_remove_dups..|].
    intros y. rewrite !elem_of_remove_dups, elem_of_app, list_elem_of_singleton.
    split; [by intros [?| ->] | by left].
  - change (S (length (remove_dups l))) with (length (x :: remove_dups l)).
    apply Permutation_length, NoDup_Permutation; [apply NoDup_remove_dups| |].
    + constructor; [by rewrite elem_of_remove_dups | apply NoDup_remove_dups].
    + intros y.
      rewrite elem_of_cons, !elem_of_remove_dups, elem_of_app,
        list_elem_of_singleton. tauto.
Qed.

(** The prefix table grows by one record for each new prefix path and by
    nothing else: in every state the program reaches it holds the ten
    records of [init] and one record for each distinct non-empty path that
    was registered as a prefix route. *)
Theorem prefix_table_length `{sorter : SliceSorter} (ops : list op) :
  length (prefixRoutesTable (run ops init))
  = 10 + length (distinctPrefixPaths ops).
Proof.
  induction ops as [|o ops IH] using rev_ind; [done|].
  rewrite run_snoc. unfold distinctPrefixPaths, prefixPathsOf in *.
  rewrite omap_app, filter_app. fold (prefixPathsOf ops) in *.
  destruct o as [p mt d|p]; simpl.
  - destruct (String.eqb mt "exact") eqn:Hmt.
    { apply String.eqb_eq in Hmt as ->. rewrite AddRoute_exact. simpl.
      by rewrite filter_nil, app_nil_r. }
    apply String.eqb_neq in Hmt. rewrite filter_cons, filter_nil.
    pose proof (table_paths_run ops p) as Hpaths.
    destruct (list_find (λ r, path r = p) (prefixRoutesTable (run ops init)))
      as [[i r0]|] eqn:Hfind.
    + rewrite (AddRoute_modify _ p mt d i r0 Hmt Hfind). simpl.
      rewrite length_alter, IH.
      apply list_find_Some in Hfind as (Hi & Hp & _).
      assert (p ∈ path <$> prefixRoutesTable (run ops init)) as Hin.
      { apply list_elem_of_fmap. exists r0.
        split; [done | by apply list_elem_of_lookup_2 in Hi]. }
      apply Hpaths in Hin. destruct (decide (p ≠ "")) as [Hne|Hempty].
      * rewrite length_remove_dups_snoc. rewrite decide_True; [done|].
        apply list_elem_of_filter. split; [done|]. by destruct Hin.
      * by rewrite app_nil_r.
    + rewrite (AddRoute_insert _ p mt d Hmt Hfind). simpl.
      rewrite sort_Slice_perm, length_app, IH. simpl.
      apply list_find_None in Hfind. rewrite Forall_forall in Hfind.
      assert (p ∉ path <$> prefixRoutesTable (run ops init)) as Hout.
      { intros (r & Hp & Hr)%list_elem_of_fmap. by apply (Hfind r). }
      rewrite Hpaths in Hout.
      rewrite decide_True by (intros ->; apply Hout; by left).
      rewrite length_remove_dups_snoc. rewrite decide_False; [lia|].
      intros [_ Hin]%list_elem_of_filter. apply Hout. by right.
  - rewrite RouteLookup_prefixRoutesTable, IH. simpl.
    by rewrite filter_nil, app_nil_r.
Qed.

(** ** The test of the package *)

Section TestHarness.
Context `{sorter : SliceSorter}.

Lemma testRow_spec (fails : list failure) (st : state)
    (test : pathLookupsTest) :
  testRow (fails, st) test
  = ((fails ++ rowFailures st test)%list, rowState st test).
Proof.
  unfold testRow, rowFailures, rowState, rowOp.
  destruct (String.eqb (operation test) "addRoute") eqn:Hadd.
  - apply String.eqb_eq in Hadd. rewrite Hadd. simpl.
    pose proof (AddRoute_error_nil st (arg1 test) (arg2 test) (arg3 test))
      as Herr.
    destruct (AddRoute st (arg1 test) (arg2 test) (arg3 test))
      as [output st'] eqn:Hcall.
    simpl in Herr. subst output. by rewrite andb_false_r, app_nil_r.
  - destruct (String.eqb (operation test) "routeLookup") eqn:Hlookup; simpl;
      [|by rewrite app_nil_r].
    pose proof (RouteLookup_error_nil st (arg1 test)) as Herr.
    destruct (RouteLookup st (arg1 test)) as [[output1 output2] st'] eqn:Hcall.
    simpl in *. subst output2. rewrite andb_false_r.
    destruct (bool_decide (output1 ≠ expected1 test)); [done|].
    by rewrite app_nil_r.
Qed.

Lemma fold_testRow_spec (tests : list pathLookupsTest) (fails : list failure)
    (st : state) :
  fold_left testRow tests (fails, st)
  = ((fails ++ testFailures tests st)%list, run (omap rowOp tests) st).
Proof.
  revert fails st. induction tests as [|test tests IH]; intros fails st.
  - simpl. by rewrite app_nil_r.
  - change (fold_left testRow (test :: tests) (fails, st))
      with (fold_left testRow tests (testRow (fails, st) test)).
    rewrite testRow_spec, IH.
    change (testFailures (test :: tests) st)
      with (rowFailures st test ++ testFailures tests (rowState st test))%list.
    rewrite <- app_assoc. f_equal. unfold rowState.
    change (omap rowOp (test :: tests))
      with (match rowOp test with
            | Some o => o :: omap rowOp tests
            | None => omap rowOp tests
            end).
    by destruct (rowOp test).
Qed.

Lemma testFailures_nil (tests : list pathLookupsTest) (st : state) :
  testFailures tests st = [] ↔ rowsAgree tests st.
Proof.
  revert st. induction tests as [|test tests IH]; intros st; simpl; [done|].
  rewrite app_nil, IH. fold (rowState st test).
  apply and_iff_compat_r. unfold rowFailures.
  destruct (String.eqb (operation test) "routeLookup") eqn:Hlookup; simpl.
  - apply String.eqb_eq in Hlookup.
    destruct (decide (fst (fst (RouteLookup st (arg1 test))) = expected1 test))
      as [Heq|Hne].
    + rewrite bool_decide_eq_false_2 by (by intros []). done.
    + rewrite bool_decide_eq_true_2 by done. split; [done|].
      intros Hagree. by destruct Hne; apply Hagree.
  - apply String.eqb_neq in Hlookup. done.
Qed.

(** What the test can report.  On any table of rows, from any state, the
    test makes the calls of the rows in order; the only failure it ever
    records is a wrong destination of a "routeLookup" row, because the
    engine returns no error; and it records no failure exactly when every
    "routeLookup" row expects the destination that the engine answers. *)
Theorem TestRouteAddsLookups_reports (tests : list pathLookupsTest)
    (st : state) :
  snd (TestRouteAddsLookups tests st) = run (omap rowOp tests) st
  ∧ Forall (λ f, ∃ got want, f = WrongDestination got want)
      (fst (TestRouteAddsLookups tests st))
  ∧ (fst (TestRouteAddsLookups tests st) = [] ↔ rowsAgree tests st).
Proof.
  unfold TestRouteAddsLookups. rewrite fold_testRow_spec. simpl.
  split; [done|]. split; [|apply testFailures_nil].
  revert st. induction tests as [|test tests IH]; intros st; simpl; [done|].
  apply Forall_app. split; [|apply IH]. unfold rowFailures.
  destruct (_ && _); [|done]. constructor; [|done]. by eexists _, _.
Qed.

Lemma testFailures_canonical (tests : list pathLookupsTest) (st : state) :
  runCanonical (sorter := insertionSorter) (omap rowOp tests) st = true →
  testFailures tests st = testFailures (sorter := insertionSorter) tests st.
Proof.
  revert st. induction tests as [|test tests IH]; intros st; simpl; [done|].
  unfold rowState. destruct (rowOp test) as [o|]; simpl.
  - intros [Ho Hrest]%andb_true_iff.
    rewrite (step_canonical st o Ho). f_equal. by apply IH.
  - intros Hrest. f_equal. by apply IH.
Qed.

(** The test of the package passes: on its table [addLookupTests], from the
    initial state, it records no failure, whatever sorter [sort.Slice] is. *)
Theorem TestRouteAddsLookups_passes :
  fst (TestRouteAddsLookups addLookupTests init) = [].
Proof.
  unfold TestRouteAddsLookups. rewrite fold_testRow_spec. cbn [fst app].
  rewrite (testFailures_canonical addLookupTests init)
    by (vm_compute; reflexivity).
  vm_compute. reflexivity.
Qed.

End TestHarness.

(** ** Re-registration of a prefix path at any later point *)

(** C8, as amended.  After any sequence of calls from [init] the records of
    the prefix table are ordered by non-increasing path length and the table
    holds at most one record for every non-empty path.  Registering again, at
    any later point and with any calls in between, a path that was registered
    as a prefix route (or the empty path, which the table always has)
    appends no duplicate: the first record of the table with that path gets
    the new destination in place and the table is otherwise unchanged, so its
    paths and its length stay as they are.  For a non-empty path that record
    is the only one with the path, so every record with the path carries the
    new destination; for the empty path the other records with the empty path
    keep what they hold. *)
Theorem prefixRoutesTable_invariant `{sorter : SliceSorter} (ops : list op) :
  let st := run ops init in
  (∀ i j a b, (i < j)%nat →
     prefixRoutesTable st !! i = Some a → prefixRoutesTable st !! j = Some b →
     (String.length (path b) ≤ String.length (path a))%nat)
  ∧ (∀ p, p ≠ "" → (length (recordsFor p (prefixRoutesTable st)) ≤ 1)%nat)
  ∧ (∀ p d d',
       let once := snd (AddRoute st p "prefix" d) in
       let twice := snd (AddRoute once p "prefix" d') in
       path <$> prefixRoutesTable twice = path <$> prefixRoutesTable once
       ∧ length (prefixRoutesTable twice) = length (prefixRoutesTable once)
       ∧ ∃ r, r ∈ prefixRoutesTable twice ∧ path r = p ∧ destination r = d')
  ∧ (∀ p mt d, mt ≠ "exact" → p = "" ∨ p ∈ prefixPathsOf ops →
       let st' := snd (AddRoute st p mt d) in
       ∃ i r,
         prefixRoutesTable st !! i = Some r ∧ path r = p
         ∧ (∀ j r', (j < i)%nat → prefixRoutesTable st !! j = Some r' →
                    path r' ≠ p)
         ∧ prefixRoutesTable st'
           = alter (setDestination d) i (prefixRoutesTable st)
         ∧ path <$> prefixRoutesTable st' = path <$> prefixRoutesTable st
         ∧ length (prefixRoutesTable st') = length (prefixRoutesTable st)
         ∧ (p ≠ "" → ∀ r', r' ∈ prefixRoutesTable st' → path r' = p →
                           destination r' = d)).
Proof.
  intros st.
  destruct (tableInvariant_run ops init tableInvariant_init) as [Hsorted Hone].
  fold st in Hsorted, Hone.
  split; [|split; [exact Hone|split]].
  - intros i j a b. by apply sortedByPathLength_lookup.
  - intros p d d' once twice.
    assert ("prefix" ≠ "exact") as Hmt by done.
    destruct (AddRoute_prefix_registered st p "prefix" d Hmt)
      as (r & Hr & Hp & _).
    destruct (AddRoute_reregister once p "prefix" d' r Hmt Hr Hp) as [Hpaths Hlen].
    split; [exact Hpaths|]. split; [exact Hlen|].
    by apply AddRoute_prefix_registered.
  - intros p mt d Hmt Hreg st'.
    assert (p ∈ path <$> prefixRoutesTable st) as Hin
      by (by apply table_paths_run).
    apply list_elem_of_fmap in Hin as (r1 & Hp1 & Hr1).
    destruct (list_find_elem_of (λ r, path r = p) _ r1 Hr1 (eq_sym Hp1))
      as [[i r] Hfind].
    pose proof (proj1 (list_find_Some _ _ _ _) Hfind) as (Hi & Hp & Hfirst).
    exists i, r. subst st'.
    rewrite (AddRoute_modify st p mt d i r Hmt Hfind). cbn [snd]. simpl.
    split; [done|]. split; [done|].
    split; [intros j r' Hj Hr'; by apply (Hfirst j r')|].
    split; [done|]. split; [apply fmap_path_alter|].
    split; [apply length_alter|].
    intros Hne r' Hr' Hp'.
    pose proof (Hone p Hne) as Hcount.
    rewrite <- (recordsFor_alter p _ i d) in Hcount.
    assert (r' ∈ recordsFor p (alter (setDestination d) i (prefixRoutesTable st)))
      as Hin' by (by apply list_elem_of_filter).
    assert (setDestination d r
              ∈ recordsFor p (alter (setDestination d) i (prefixRoutesTable st)))
      as Hin0.
    { apply list_elem_of_filter. split; [done|].
      apply list_elem_of_lookup. exists i.
      by rewrite list_lookup_alter_eq, Hi. }
    destruct (recordsFor p _) as [|a [|b l]]; simpl in Hcount.
    + by apply not_elem_of_nil in Hin'.
    + apply list_elem_of_singleton in Hin', Hin0. by subst r' a.
    + lia.
Qed.

(** C8, as amended, at work with calls in between: "/api/2/" is registered
    in the worked example, two lookups and an exact registration follow, and
    registering it again changes the third record of the table in place. *)
Lemma prefix_path_registered_again_later `{sorter : SliceSorter} :
  let st := run (exampleRoutes
                   ++ [ OpRouteLookup "/api/2/x";
                        OpAddRoute "/api/2/" "exact" "service-9";
                        OpRouteLookup "/api/3" ]) init in
  prefixRoutesTable (snd (AddRoute st "/api/2/" "prefix" "service-7"))
  = ([ mkRoute "/api/2/1/1" "prefix" "service-6" false;
       mkRoute "/api/2/1" "prefix" "service-3" false;
       mkRoute "/api/2/" "prefix" "service-7" false;
       mkRoute "/api/1" "prefix" "service-5" false ]
     ++ replicate 10 zeroRoute)%list.
Proof.
  intros st. subst st.
  rewrite (run_canonical _ init) by (vm_compute; reflexivity).
  vm_compute. reflexivity.
Qed.
